(** * Cutting-plane transformation for GDP models, and the temporary
      subsystem manager: a shallow embedding of

      - [pyomo/gdp/plugins/cuttingplane.py]
        ([CuttingPlane_Transformation._apply_to]) and
      - [pyomo/util/subsystems.py] ([TemporarySubsystemManager],
        [create_subsystem_block] and [ParamSweeper]).

    Python numbers are modelled by their exact value (a rational, the two
    infinities, or NaN): every double is one of these, and the literal
    [0.001] is the double Python reads it as.  The results of arithmetic
    are exact; rounding of binary floating point is not modelled.  Python
    exceptions are the [Raise] results of an error monad.  The [while] loop
    of [_apply_to] is run with fuel.  Next to the result of a pass, which
    is lost when an exception leaves it, [pass_store] keeps the objects as
    the pass leaves them: an exception does not undo what the lines before
    it did to the models. *)

From Stdlib Require Import QArith Qcanon Ascii String.
From stdpp Require Import base option list strings pretty gmap numbers
  functions.

Open Scope string_scope.

(** ** Python numbers *)

Module PyNum.

(** A Python number: a finite value, [float("inf")], [-float("inf")]
    or NaN. *)
Inductive num : Type :=
| Fin (q : Qc)
| PInf
| NInf
| NaN.

Definition zero : num := Fin (Q2Qc 0).

Definition neg (a : num) : num :=
  match a with
  | Fin q => Fin (- q)%Qc
  | PInf => NInf
  | NInf => PInf
  | NaN => NaN
  end.

Definition add (a b : num) : num :=
  match a, b with
  | NaN, _ | _, NaN => NaN
  | Fin p, Fin q => Fin (p + q)%Qc
  | PInf, NInf | NInf, PInf => NaN
  | PInf, _ | _, PInf => PInf
  | NInf, _ | _, NInf => NInf
  end.

(** [a - b] *)
Definition sub (a b : num) : num := add a (neg b).

(** The sign of a number that is not NaN. *)
Definition sign (a : num) : comparison :=
  match a with
  | Fin q => (q ?= Q2Qc 0)%Qc
  | PInf => Gt
  | NInf => Lt
  | NaN => Eq
  end.

Definition mul (a b : num) : num :=
  match a, b with
  | NaN, _ | _, NaN => NaN
  | Fin p, Fin q => Fin (p * q)%Qc
  | _, _ =>
      match sign a, sign b with
      | Eq, _ | _, Eq => NaN
      | Gt, Gt | Lt, Lt => PInf
      | Gt, Lt | Lt, Gt => NInf
      end
  end.

(** [a ** n] for a natural exponent. *)
Fixpoint pow (a : num) (n : nat) : num :=
  match n with
  | O => Fin (Q2Qc 1)
  | S n' => mul a (pow a n')
  end.

(** [a > b]: false as soon as one side is NaN. *)
Definition gtb (a b : num) : bool :=
  match a, b with
  | NaN, _ | _, NaN => false
  | Fin p, Fin q => bool_decide (q < p)%Qc
  | PInf, PInf => false
  | PInf, _ => true
  | _, PInf => false
  | NInf, _ => false
  | Fin _, NInf => true
  end.

#[global] Instance num_eq_dec : EqDecision num.
Proof. solve_decision. Defined.

End PyNum.
Import PyNum.

(** ** Exceptions *)

Inductive exn : Type :=
| StopIteration
| AttributeError (name : string)
| KeyError (key : string)
| NameError (name : string)
| RuntimeError (name : string)
| TypeError
| SolverException.

Inductive result (A : Type) : Type :=
| Ok (a : A)
| Raise (e : exn).
Arguments Ok {A} a.
Arguments Raise {A} e.

#[global] Instance result_ret : MRet result := fun A a => Ok a.
#[global] Instance result_bind : MBind result := fun A B f m =>
  match m with
  | Ok a => f a
  | Raise e => Raise e
  end.

(** A lookup that raises [e] when it finds nothing. *)
Definition or_raise {A} (e : exn) (o : option A) : result A :=
  match o with
  | Some a => Ok a
  | None => Raise e
  end.

(** A Python [for] loop over [l] threading the loop's variables [s]; an
    exception in the body leaves the loop. *)
Fixpoint for_each {A S : Type} (body : S -> A -> result S)
    (l : list A) (s : S) : result S :=
  match l with
  | [] => Ok s
  | x :: l' =>
      match body s x with
      | Ok s' => for_each body l' s'
      | Raise e => Raise e
      end
  end.

(** ** The Pyomo objects the transformation reads and writes

    The classes of [pyomo.core] are not among the sources; what follows
    keeps of them the attributes [_apply_to] uses. *)

(** The key of one element of a variable: [None] for a scalar variable,
    else an integer or a string. *)
Inductive index : Type :=
| INone
| IInt (z : Z)
| IStr (s : string).

#[global] Instance index_eq_dec : EqDecision index.
Proof. solve_decision. Defined.

(** [str(index)] *)
Definition str_index (i : index) : string :=
  match i with
  | INone => "None"
  | IInt z => pretty z
  | IStr s => s
  end.

(** The three model instances [_apply_to] works on.  An expression refers
    to variable objects, and a variable object belongs to one instance. *)
Inductive instance_id : Type :=
| Bigm      (* instance_bigm *)
| RBigm     (* instance_rBigm *)
| RChull.   (* instance_rChull *)

#[global] Instance instance_id_eq_dec : EqDecision instance_id.
Proof. solve_decision. Defined.

(** Expressions built by Python's arithmetic operators on variables and
    numbers. *)
Inductive expr : Type :=
| ENum (c : num)
| EVar (i : instance_id) (name : string) (idx : index)
| EAdd (a b : expr)
| ESub (a b : expr)
| EMul (a b : expr)
| EPow (a : expr) (n : nat).

(** A [Var] component: its name ([str(v)], which for a component inside a
    block carries the names of the enclosing blocks, separated by dots),
    its [active] flag and its elements in the order iteration over the
    component yields them.  The [value] of an element is [None] until
    something gives it one. *)
Record Var : Type := mkVar {
  v_name : string;
  v_active : bool;
  v_data : list (index * option num)
}.

(** A scalar [Objective] component, which is its own data object: its
    name ([str(o)]), its [active] flag and its expression. *)
Record Objective : Type := mkObjective {
  o_name : string;
  o_active : bool;
  o_expr : expr
}.

(** A constraint [c_body >= c_lower]. *)
Record Constraint : Type := mkConstraint {
  c_name : string;
  c_body : expr;
  c_lower : num
}.

(** A model: the [Var], [Objective] and [Constraint] components of the
    model and of its blocks, each kind in the order [component_objects]
    yields them. *)
Record Model : Type := mkModel {
  m_vars : list Var;
  m_objectives : list Objective;
  m_constraints : list Constraint
}.

(** [m.component_objects(Var, active=True)] *)
Definition component_objects_Var (m : Model) : list Var :=
  filter (fun v => v_active v = true) (m_vars m).

(** Whether the character [c] occurs in [s]. *)
Fixpoint occurs (c : ascii) (s : string) : bool :=
  match s with
  | EmptyString => false
  | String a s' => if decide (a = c) then true else occurs c s'
  end.

(** The variable called [var_name], wherever it is in the blocks of the
    model. *)
Definition find_var (m : Model) (var_name : string) : option Var :=
  List.find (fun v => bool_decide (v_name v = var_name)) (m_vars m).

(** [getattr(m, var_name)] for the name of a variable.  The attributes of
    a model are its own components: a name with a dot in it is the name of
    a component inside a block, and the model has no attribute of that
    name. *)
Definition getattr (m : Model) (var_name : string) : result Var :=
  if occurs "." var_name then Raise (AttributeError var_name)
  else or_raise (AttributeError var_name) (find_var m var_name).

(** [getattr(m, str(obj_name))] for the name of an objective. *)
Definition getattr_Objective (m : Model) (obj_name : string)
    : result Objective :=
  if occurs "." obj_name then Raise (AttributeError obj_name)
  else
    or_raise (AttributeError obj_name)
      (List.find (fun o => bool_decide (o_name o = obj_name))
         (m_objectives m)).

(** [for index in varobject] *)
Definition indices (v : Var) : list index := map fst (v_data v).

(** The value of the element stored under [idx], if there is such an
    element. *)
Definition item (v : Var) (idx : index) : option (option num) :=
  snd <$> List.find (fun d => bool_decide (fst d = idx)) (v_data v).

(** The dictionary key the source builds for one element:
    [var_name + "[" + str(index) + "]"]. *)
Definition x_star_key (var_name : string) (idx : index) : string :=
  var_name +:+ "[" +:+ str_index idx +:+ "]".

(** [varobject[index].value] *)
Definition getitem (v : Var) (idx : index) : result (option num) :=
  or_raise (KeyError (x_star_key (v_name v) idx)) (item v idx).

(** A value as an operand of arithmetic: [None] is not a number. *)
Definition number (value : option num) : result num :=
  or_raise TypeError value.

(** [m.component_objects(Objective, active=True).next()] *)
Definition next_active_objective (m : Model) : result Objective :=
  or_raise StopIteration (List.find o_active (m_objectives m)).

(** [o.deactivate()] for every [o] of
    [m.component_data_objects(Objective)]. *)
Definition deactivate_objectives (m : Model) : Model :=
  mkModel (m_vars m)
    (map (fun o => mkObjective (o_name o) false (o_expr o)) (m_objectives m))
    (m_constraints m).

(** [obj.set_value(expr=e)] on the first active objective of [m]. *)
Fixpoint set_first_active (e : expr) (os : list Objective) : list Objective :=
  match os with
  | [] => []
  | o :: os' =>
      if o_active o then mkObjective (o_name o) true e :: os'
      else o :: set_first_active e os'
  end.

Definition set_objective_expr (m : Model) (e : expr) : Model :=
  mkModel (m_vars m) (set_first_active e (m_objectives m)) (m_constraints m).

(** The names a model already gives to its components. *)
Definition component_names (m : Model) : list string :=
  map v_name (m_vars m) ++ map o_name (m_objectives m)
    ++ map c_name (m_constraints m).

(** [m.add_component(name, Constraint(expr= body >= 0))]: a block refuses
    a name it already has. *)
Definition add_component (m : Model) (name : string) (body : expr)
    : result Model :=
  if bool_decide (name ∈ component_names m) then Raise (RuntimeError name)
  else Ok (mkModel (m_vars m) (m_objectives m)
             (m_constraints m ++ [mkConstraint name body zero])).

(** ** The solvers

    [opt.solve(model)] is an external program.  It either raises or
    returns a results object and loads the values it found into the
    model's variables. *)

Inductive SolverStatus : Type :=
| status_ok | status_warning | status_error | status_aborted.

Inductive TerminationCondition : Type :=
| optimal | infeasible | unbounded | maxIterations | other_termination.

Record SolverResults : Type := mkResults {
  solver_status : SolverStatus;
  termination_condition : TerminationCondition
}.

(** The values a solve found: [None] leaves an element as it is. *)
Definition Solution : Type := string -> index -> option num.

Definition Solver : Type := Model -> result (SolverResults * Solution).

Definition load_var (sol : Solution) (v : Var) : Var :=
  mkVar (v_name v) (v_active v)
    (map (fun d =>
            (fst d,
             match sol (v_name v) (fst d) with
             | Some value => Some value
             | None => snd d
             end))
         (v_data v)).

Definition load_solution (sol : Solution) (m : Model) : Model :=
  mkModel (map (load_var sol) (m_vars m)) (m_objectives m) (m_constraints m).

(** [opt.solve(m, tee=stream_solvers)]: the results object and the model
    with the solution loaded. *)
Definition solve (opt : Solver) (m : Model) : result (SolverResults * Model) :=
  '(results, sol) ← opt m; Ok (results, load_solution sol m).

(** ** Values of expressions *)

(** The value each variable object currently holds, per instance. *)
Definition valuation : Type := instance_id -> string -> index -> option num.

Fixpoint eval (rho : valuation) (e : expr) : option num :=
  match e with
  | ENum c => Some c
  | EVar i name idx => rho i name idx
  | EAdd a b => x ← eval rho a; y ← eval rho b; Some (add x y)
  | ESub a b => x ← eval rho a; y ← eval rho b; Some (sub x y)
  | EMul a b => x ← eval rho a; y ← eval rho b; Some (mul x y)
  | EPow a n => x ← eval rho a; Some (pow x n)
  end.

(** The value of element [idx] of the variable called [name] in [m], when
    there is such an element and it has a value: what an expression that
    holds the variable object evaluates it to. *)
Definition var_value (m : Model) (name : string) (idx : index) : option num :=
  v ← find_var m name; mjoin (item v idx).

(** ** The state of [_apply_to]

    The local names of the function.  [instance_bigm] is read at lines
    103, 112 and 129 of the source but never assigned by [_apply_to]
    (big-M is applied to the argument [instance] in place); it is the
    binding, if there is one, that Python finds for the name. *)
Record State : Type := mkState {
  instance_bigm : option Model;
  instance_rBigm : Model;
  instance_rChull : Model;
  improving : bool;
  iteration : N;
  prev_obj : num;
  epsilon : num
}.

(** Reading the name [instance_bigm]. *)
Definition read_instance_bigm (b : option Model) : result Model :=
  or_raise (NameError "instance_bigm") b.

Definition values_of (bigm : option Model) (rBigm rChull : Model) : valuation :=
  fun i name idx =>
    match i with
    | Bigm => m ← bigm; var_value m name idx
    | RBigm => var_value rBigm name idx
    | RChull => var_value rChull name idx
    end.

(** [obj.expr.value]; an expression over a variable without a value has
    none. *)
Definition expr_value (rho : valuation) (e : expr) : result num :=
  or_raise (RuntimeError "value") (eval rho e).

(** The reserved prefix of the indicator variables of the big-M
    relaxation. *)
Definition indicator_prefix : string := "_gdp_relax_bigm.".

(** [var_name.startswith("_gdp_relax_bigm.")] *)
Definition is_indicator (var_name : string) : bool :=
  String.prefix indicator_prefix var_name.

(** *** Lines 72-83: the separation objective and the point [x_star] *)

Definition separation_term (var_name : string) (idx : index) (soln_value : num)
    : expr :=
  EPow (ESub (EVar RChull var_name idx) (ENum soln_value)) 2.

(** Lines 81-83 for one index.  Line 82 stores [soln_value] whatever it is;
    when it is [None], line 83 raises and the dictionary, a local name, is
    lost with the pass: the entry is written here once line 83 has its
    operands. *)
Definition separation_inner (var_name : string) (varobject sep_var : Var)
    (acc : expr * gmap string num) (idx : index)
    : result (expr * gmap string num) :=
  let '(obj_expr, x_star) := acc in
  (* 81 *)
  soln_value ← getitem varobject idx;
  (* 83: sep_var[index], then the subtraction *)
  _ ← getitem sep_var idx;
  soln_value ← number soln_value;
  (* 82 *)
  let x_star := <[x_star_key var_name idx := soln_value]> x_star in
  Ok (EAdd obj_expr (separation_term var_name idx soln_value), x_star).

Definition separation_outer (rBigm rChull : Model)
    (acc : expr * gmap string num) (v : Var)
    : result (expr * gmap string num) :=
  let var_name := v_name v in
  if negb (is_indicator var_name) then
    varobject ← getattr rBigm var_name;
    sep_var ← getattr rChull var_name;
    for_each (separation_inner var_name varobject sep_var)
      (indices varobject) acc
  else Ok acc.

Definition separation_problem (rBigm rChull : Model)
    : result (expr * gmap string num) :=
  for_each (separation_outer rBigm rChull) (component_objects_Var rBigm)
    (ENum zero, ∅).

(** *** Lines 96-110: the two cut expressions *)

Definition cut_term (i : instance_id) (var_name : string) (idx : index)
    (norm_vec_val xhat_val : num) : expr :=
  EMul (ENum norm_vec_val) (ESub (EVar i var_name idx) (ENum xhat_val)).

Definition cut_inner (x_star : gmap string num) (var_name : string)
    (rBigm_var bigm_var xhat_var : Var) (acc : expr * expr) (idx : index)
    : result (expr * expr) :=
  let '(cutexpr_bigm, cutexpr_rBigm) := acc in
  (* 106 *)
  xhat_val ← getitem xhat_var idx;
  (* 107: the dictionary is read, then the subtraction is made *)
  x ← or_raise (KeyError (x_star_key var_name idx))
        (x_star !! x_star_key var_name idx);
  xhat_val ← number xhat_val;
  let norm_vec_val := sub xhat_val x in
  (* 109, 110 *)
  _ ← getitem bigm_var idx;
  _ ← getitem rBigm_var idx;
  Ok (EAdd cutexpr_bigm (cut_term Bigm var_name idx norm_vec_val xhat_val),
      EAdd cutexpr_rBigm (cut_term RBigm var_name idx norm_vec_val xhat_val)).

Definition cut_outer (bigm : option Model) (rBigm rChull : Model)
    (x_star : gmap string num) (acc : expr * expr) (v : Var)
    : result (expr * expr) :=
  let var_name := v_name v in
  if negb (is_indicator var_name) then
    rBigm_var ← getattr rBigm var_name;
    instance_bigm ← read_instance_bigm bigm;
    bigm_var ← getattr instance_bigm var_name;
    xhat_var ← getattr rChull var_name;
    for_each (cut_inner x_star var_name rBigm_var bigm_var xhat_var)
      (indices xhat_var) acc
  else Ok acc.

Definition cut_expressions (bigm : option Model) (rBigm rChull : Model)
    (x_star : gmap string num) : result (expr * expr) :=
  for_each (cut_outer bigm rBigm rChull x_star) (component_objects_Var rBigm)
    (ENum zero, ENum zero).

(** ["_cut" + str(iteration)] *)
Definition cut_name (iteration : N) : string := "_cut" +:+ pretty iteration.

(** The state with one of the three models replaced: what a call that
    changes a model in place does to the state. *)
Definition with_bigm (st : State) (m : Model) : State :=
  {| instance_bigm := Some m;
     instance_rBigm := instance_rBigm st;
     instance_rChull := instance_rChull st;
     improving := improving st;
     iteration := iteration st;
     prev_obj := prev_obj st;
     epsilon := epsilon st |}.

Definition with_rBigm (st : State) (m : Model) : State :=
  {| instance_bigm := instance_bigm st;
     instance_rBigm := m;
     instance_rChull := instance_rChull st;
     improving := improving st;
     iteration := iteration st;
     prev_obj := prev_obj st;
     epsilon := epsilon st |}.

Definition with_rChull (st : State) (m : Model) : State :=
  {| instance_bigm := instance_bigm st;
     instance_rBigm := instance_rBigm st;
     instance_rChull := m;
     improving := improving st;
     iteration := iteration st;
     prev_obj := prev_obj st;
     epsilon := epsilon st |}.

(** *** Lines 60-124: one pass through the body of the [while] loop *)

Section Loop.

(** [opt = SolverFactory(SOLVER)] *)
Variable opt : Solver.

(** Lines 61-66: solve rBigm, then read the value of its one active
    objective. *)
Definition weak_relaxation (st : State) : result (Model * num) :=
  (* 61: solve rBigm *)
  '(results, rBigm) ← solve opt (instance_rBigm st);
  (* 63-66: the active objective of rBigm and its value *)
  obj_name ← next_active_objective rBigm;
  rBigm_obj ← getattr_Objective rBigm (o_name obj_name);
  rBigm_objVal ←
    expr_value (values_of (instance_bigm st) rBigm (instance_rChull st))
      (o_expr rBigm_obj);
  Ok (rBigm, rBigm_objVal).

Definition loop_body (st : State) : result State :=
  '(rBigm, rBigm_objVal) ← weak_relaxation st;
  (* 72-83 *)
  '(obj_expr, x_star) ← separation_problem rBigm (instance_rChull st);
  (* 86-89: the active objective of rChull receives the expression *)
  obj_name ← next_active_objective (instance_rChull st);
  rChull_obj ← getattr_Objective (instance_rChull st) (o_name obj_name);
  let rChull := set_objective_expr (instance_rChull st) obj_expr in
  (* 92: solve the separation problem *)
  '(_, rChull) ← solve opt rChull;
  (* 96-110 *)
  '(cutexpr_bigm, cutexpr_rBigm) ←
    cut_expressions (instance_bigm st) rBigm rChull x_star;
  (* 112-115 *)
  bigm ← read_instance_bigm (instance_bigm st);
  bigm ← add_component bigm (cut_name (iteration st)) cutexpr_bigm;
  rBigm ← add_component rBigm (cut_name (iteration st)) cutexpr_rBigm;
  (* 118-124 *)
  Ok {| instance_bigm := Some bigm;
        instance_rBigm := rBigm;
        instance_rChull := rChull;
        improving := gtb (sub (prev_obj st) rBigm_objVal) (epsilon st);
        iteration := (iteration st + 1)%N;
        prev_obj := rBigm_objVal;
        epsilon := epsilon st |}.

(** How a run of the loop ends: the loop is left, an exception escapes,
    or the fuel given to the model is used up. *)
Inductive outcome (A : Type) : Type :=
| Returned (a : A)
| Raised (e : exn)
| OutOfFuel.
Arguments Returned {A} a.
Arguments Raised {A} e.
Arguments OutOfFuel {A}.

(** [while (improving): ...] *)
Fixpoint while_improving (fuel : nat) (st : State) : outcome State :=
  if improving st then
    match fuel with
    | O => OutOfFuel
    | S fuel' =>
        match loop_body st with
        | Ok st' => while_improving fuel' st'
        | Raise e => Raised e
        end
    end
  else Returned st.

(** *** The objects when a pass ends

    The same pass, keeping the state of the objects at the point where it
    ends: [None] when line 124 is reached, the exception otherwise.  The
    solves (lines 61 and 92), [set_value] (line 89) and [add_component]
    (lines 112 and 114) change a model in place; the lines between them
    only read.  A solve that raises is taken to leave its model as it
    was. *)
Definition pass_store (st : State) : State * option exn :=
  (* 61 *)
  match solve opt (instance_rBigm st) with
  | Raise e => (st, Some e)
  | Ok (_, rBigm) =>
  let st := with_rBigm st rBigm in
  (* 63-87 *)
  match
    obj_name ← next_active_objective rBigm;
    rBigm_obj ← getattr_Objective rBigm (o_name obj_name);
    rBigm_objVal ←
      expr_value (values_of (instance_bigm st) rBigm (instance_rChull st))
        (o_expr rBigm_obj);
    '(obj_expr, x_star) ← separation_problem rBigm (instance_rChull st);
    obj_name ← next_active_objective (instance_rChull st);
    rChull_obj ← getattr_Objective (instance_rChull st) (o_name obj_name);
    Ok (rBigm_objVal, obj_expr, x_star)
  with
  | Raise e => (st, Some e)
  | Ok (rBigm_objVal, obj_expr, x_star) =>
  (* 89 *)
  let st :=
    with_rChull st (set_objective_expr (instance_rChull st) obj_expr) in
  (* 92 *)
  match solve opt (instance_rChull st) with
  | Raise e => (st, Some e)
  | Ok (_, rChull) =>
  let st := with_rChull st rChull in
  (* 96-110 *)
  match cut_expressions (instance_bigm st) rBigm rChull x_star with
  | Raise e => (st, Some e)
  | Ok (cutexpr_bigm, cutexpr_rBigm) =>
  (* 112 *)
  match
    bigm ← read_instance_bigm (instance_bigm st);
    add_component bigm (cut_name (iteration st)) cutexpr_bigm
  with
  | Raise e => (st, Some e)
  | Ok bigm =>
  let st := with_bigm st bigm in
  (* 114 *)
  match add_component rBigm (cut_name (iteration st)) cutexpr_rBigm with
  | Raise e => (st, Some e)
  | Ok rBigm =>
  (* 118-124 *)
  ({| instance_bigm := instance_bigm st;
      instance_rBigm := rBigm;
      instance_rChull := instance_rChull st;
      improving := gtb (sub (prev_obj st) rBigm_objVal) (epsilon st);
      iteration := (iteration st + 1)%N;
      prev_obj := rBigm_objVal;
      epsilon := epsilon st |}, None)
  end end end end end end.

(** The [while] loop with the state of the objects when it ends. *)
Fixpoint loop_store (fuel : nat) (st : State) : State * outcome unit :=
  if improving st then
    match fuel with
    | O => (st, OutOfFuel)
    | S fuel' =>
        match pass_store st with
        | (st', None) => loop_store fuel' st'
        | (st', Some e) => (st', Raised e)
        end
    end
  else (st, Returned tt).

End Loop.

Arguments Returned {A} a.
Arguments Raised {A} e.
Arguments OutOfFuel {A}.

(** [first_pass st st']: [st'] is [st], or [st] with the values of a
    solution loaded into the variables of the weak relaxation. *)
Inductive first_pass (st : State) : State -> Prop :=
| first_pass_unsolved : first_pass st st
| first_pass_solved sol :
    first_pass st (with_rBigm st (load_solution sol (instance_rBigm st))).

(** The objective value of the weak relaxation a pass started in [st]
    reads at line 66, when it gets that far. *)
Definition objective_value (opt : Solver) (st : State) : option num :=
  match weak_relaxation opt st with
  | Ok (_, rBigm_objVal) => Some rBigm_objVal
  | Raise _ => None
  end.


(** The literal [0.001] of line 46: the double nearest to 1/1000, which is
    1152921504606847 / 2^60. *)
Definition epsilon_default : num :=
  Fin (Q2Qc (1152921504606847 # 1152921504606846976)).

(** ** [_apply_to]

    The relaxations and the solvers are external: the transformations
    ['gdp.bigm'], ['gdp.chull'] and ['core.relax_integrality'], the solver
    [SOLVER] and the solver [MIPSOLVER]. *)

Section ApplyTo.

Variable bigm_apply_to : Model -> Model.
Variable chull_create_using : Model -> Model.
Variable relax_integrality : Model -> Model.
Variable opt : Solver.
Variable mip_opt : Solver.

(** What the name [instance_bigm] is bound to outside the function, if
    anything. *)
Variable global_instance_bigm : option Model.

(** Lines 29-49: the state on entry to the loop. *)
Definition initial_state (instance : Model) : State :=
  let instance_rChull := relax_integrality (chull_create_using instance) in
  let instance := bigm_apply_to instance in
  let instance_rBigm := relax_integrality instance in
  {| instance_bigm := global_instance_bigm;
     instance_rBigm := instance_rBigm;
     instance_rChull := deactivate_objectives instance_rChull;
     improving := true;
     iteration := 0%N;
     prev_obj := PInf;
     epsilon := epsilon_default |}.

(** Lines 126-129: the model with the cuts goes to the MIP solver. *)
Definition solve_mip (st : State) : result State :=
  bigm ← read_instance_bigm (instance_bigm st);
  '(_, bigm) ← solve mip_opt bigm;
  Ok {| instance_bigm := Some bigm;
        instance_rBigm := instance_rBigm st;
        instance_rChull := instance_rChull st;
        improving := improving st;
        iteration := iteration st;
        prev_obj := prev_obj st;
        epsilon := epsilon st |}.

Definition _apply_to (fuel : nat) (instance : Model) : outcome State :=
  match while_improving opt fuel (initial_state instance) with
  | Returned st =>
      match solve_mip st with
      | Ok st' => Returned st'
      | Raise e => Raised e
      end
  | Raised e => Raised e
  | OutOfFuel => OutOfFuel
  end.

(** [_apply_to] with the state of the objects when it ends. *)
Definition apply_to_store (fuel : nat) (instance : Model)
    : State * outcome unit :=
  match loop_store opt fuel (initial_state instance) with
  | (st, Returned _) =>
      match solve_mip st with
      | Ok st' => (st', Returned tt)
      | Raise e => (st, Raised e)
      end
  | (st, Raised e) => (st, Raised e)
  | (st, OutOfFuel) => (st, OutOfFuel)
  end.

End ApplyTo.

(** ** The candidate point the specification describes

    The registered variables are the active variables of the weak
    relaxation whose name does not carry the indicator prefix; a handle is
    one element of one of them. *)

(** A name that starts with the reserved prefix, said without the test of
    the code. *)
Definition has_indicator_prefix (name : string) : Prop :=
  exists rest, name = "_gdp_relax_bigm." +:+ rest.

(** [has_element m name idx]: the model has a variable called [name] as an
    attribute, and it has an element [idx]. *)
Definition has_element (m : Model) (name : string) (idx : index) : Prop :=
  exists v, getattr m name = Ok v /\ idx ∈ indices v.

Definition registered (rBigm : Model) : list Var :=
  filter (fun v => negb (is_indicator (v_name v)) = true)
    (component_objects_Var rBigm).

(** The elements of the variable of [m] that has the name of [v]. *)
Definition handles_in (m : Model) (v : Var) : list (string * index) :=
  match getattr m (v_name v) with
  | Ok var => map (pair (v_name v)) (indices var)
  | Raise _ => []
  end.

(** The handles of the candidate point: the elements of the registered
    variables in the weak relaxation. *)
Definition candidate_handles (rBigm : Model) : list (string * index) :=
  flat_map (handles_in rBigm) (registered rBigm).

Definition handle_key (h : string * index) : string := x_star_key h.1 h.2.

(** A point gives a value to every handle. *)
Definition point : Type := string -> index -> num.

(** The point held by the variables of [m]. *)
Definition point_of (m : Model) : point :=
  fun name idx => default NaN (var_value m name idx).

(** The dictionary [x_star] holding the point [x] at the handles [hs],
    filled in their order. *)
Definition x_star_of (x : point) (hs : list (string * index))
    : gmap string num :=
  fold_left (fun m h => <[handle_key h := x h.1 h.2]> m) hs ∅.

(** The objective [sum_i (v_i - x[i])**2] of the separation problem over
    the variables of the hull relaxation. *)
Definition separation_objective (x : point) (hs : list (string * index))
    : expr :=
  fold_left (fun acc h => EAdd acc (separation_term h.1 h.2 (x h.1 h.2)))
    hs (ENum zero).

(** The candidate point as line 107 reads it: the value stored in the
    dictionary under the key of the element, NaN where there is none. *)
Definition dict_point (x_star : gmap string num) : point :=
  fun name idx => default NaN (x_star !! x_star_key name idx).

(** The variable objects an expression mentions, left to right. *)
Fixpoint expr_vars (e : expr) : list (instance_id * (string * index)) :=
  match e with
  | ENum _ => []
  | EVar i name idx => [(i, (name, idx))]
  | EAdd a b | ESub a b | EMul a b => expr_vars a ++ expr_vars b
  | EPow a _ => expr_vars a
  end.

(** * [TemporarySubsystemManager] ([pyomo/util/subsystems.py])

    The manager holds references to variables, constraints and components
    that live outside it.  A reference is the identity of an object; the
    store gives each object its attributes, and the methods of the objects
    update the store. *)

Module Subsystems.

(** The identity of an object. *)
Abbreviation ref := nat (only parsing).

Section Manager.

(** The values components hold ([comp.value]). *)
Context {value : Type}.

Record Store : Type := mkStore {
  var_fixed : ref -> bool;       (* var.fixed *)
  comp_value : ref -> value;     (* comp.value, for variables too *)
  con_active : ref -> bool       (* con.active *)
}.

(** [var.fix()], without a value: the value stays. *)
Definition fix_ (var : ref) (s : Store) : Store :=
  mkStore (<[var := true]> (var_fixed s)) (comp_value s) (con_active s).

(** [var.unfix()] *)
Definition unfix (var : ref) (s : Store) : Store :=
  mkStore (<[var := false]> (var_fixed s)) (comp_value s) (con_active s).

(** [con.deactivate()] *)
Definition deactivate (con : ref) (s : Store) : Store :=
  mkStore (var_fixed s) (comp_value s) (<[con := false]> (con_active s)).

(** [con.activate()] *)
Definition activate (con : ref) (s : Store) : Store :=
  mkStore (var_fixed s) (comp_value s) (<[con := true]> (con_active s)).

(** [comp.set_value(val)] *)
Definition set_value (comp : ref) (val : value) (s : Store) : Store :=
  mkStore (var_fixed s) (<[comp := val]> (comp_value s)) (con_active s).

Record TemporarySubsystemManager : Type := mkManager {
  _vars_to_fix : list ref;
  _cons_to_deactivate : list ref;
  _comps_to_set : list ref;
  _var_was_fixed : option (list (ref * bool));
  _con_was_active : option (list (ref * bool));
  _comp_original_value : option (list (ref * value))
}.

(** [__init__(self, to_fix=None, to_deactivate=None, to_reset=None)] *)
Definition __init__ (to_fix to_deactivate to_reset : option (list ref))
    : TemporarySubsystemManager :=
  let to_fix := default [] to_fix in
  let to_deactivate := default [] to_deactivate in
  let to_reset := default [] to_reset in
  mkManager to_fix to_deactivate to_reset None None None.

(** [__enter__(self)]: the manager with the state it recorded, and the
    store after the variables are fixed and the constraints
    deactivated. *)
Definition __enter__ (self : TemporarySubsystemManager) (s : Store)
    : TemporarySubsystemManager * Store :=
  let to_fix := _vars_to_fix self in
  let to_deactivate := _cons_to_deactivate self in
  let to_set := _comps_to_set self in
  let self :=
    mkManager to_fix to_deactivate to_set
      (Some (map (fun var => (var, var_fixed s var)) to_fix))
      (Some (map (fun con => (con, con_active s con)) to_deactivate))
      (Some (map (fun comp => (comp, comp_value s comp)) to_set)) in
  let s := fold_left (fun s var => fix_ var s) (_vars_to_fix self) s in
  let s := fold_left (fun s con => deactivate con s)
             (_cons_to_deactivate self) s in
  (self, s).

Definition unfix_unless_was_fixed (s : Store) (entry : ref * bool) : Store :=
  let '(var, was_fixed) := entry in
  if negb was_fixed then unfix var s else s.

Definition activate_if_was_active (s : Store) (entry : ref * bool) : Store :=
  let '(con, was_active) := entry in
  if was_active then activate con s else s.

Definition restore_value (s : Store) (entry : ref * value) : Store :=
  let '(comp, val) := entry in set_value comp val s.

(** [__exit__(self, ex_type, ex_val, ex_bt)]; without a preceding
    [__enter__] the recorded lists are [None] and iterating them fails. *)
Definition __exit__ (self : TemporarySubsystemManager) (s : Store)
    : option Store :=
  var_was_fixed ← _var_was_fixed self;
  let s := fold_left unfix_unless_was_fixed var_was_fixed s in
  con_was_active ← _con_was_active self;
  let s := fold_left activate_if_was_active con_was_active s in
  comp_original_value ← _comp_original_value self;
  Some (fold_left restore_value comp_original_value s).

(** [with TemporarySubsystemManager(...): body]: the store when the
    [with] statement is left. *)
Definition with_manager (to_fix to_deactivate to_reset : option (list ref))
    (body : Store -> Store) (s : Store) : option Store :=
  let '(self, s) := __enter__ (__init__ to_fix to_deactivate to_reset) s in
  __exit__ self (body s).

End Manager.

End Subsystems.

(** ** Small instances and scripted solvers, for running the definitions *)

#[global] Instance expr_eq_dec : EqDecision expr.
Proof. solve_decision. Defined.
#[global] Instance Var_eq_dec : EqDecision Var.
Proof. solve_decision. Defined.
#[global] Instance Objective_eq_dec : EqDecision Objective.
Proof. solve_decision. Defined.
#[global] Instance Constraint_eq_dec : EqDecision Constraint.
Proof. solve_decision. Defined.
#[global] Instance Model_eq_dec : EqDecision Model.
Proof. solve_decision. Defined.

Module Example.

Definition q (a : Z) (b : positive) : num := Fin (Q2Qc (a # b)).

Definition x : Var := mkVar "x" true [(INone, Some zero)].
Definition y : Var :=
  mkVar "y" true [(IInt 1, Some zero); (IInt 2, Some zero)].
Definition indicator : Var :=
  mkVar "_gdp_relax_bigm.d_indicator_var" true [(INone, Some zero)].

Definition objective (i : instance_id) : Objective :=
  mkObjective "obj" true (EVar i "x" INone).

Definition bigm0 : Model := mkModel [x; y; indicator] [objective Bigm] [].
Definition rBigm0 : Model := mkModel [x; y; indicator] [objective RBigm] [].
Definition rChull0 : Model := mkModel [x; y] [objective RChull] [].

(** A model whose active objective is a single variable of rBigm is the
    weak relaxation; the separation problem has a sum of squares. *)
Definition is_weak (m : Model) : bool :=
  match List.find o_active (m_objectives m) with
  | Some o => match o_expr o with EVar RBigm _ _ => true | _ => false end
  | None => false
  end.

(** A solver that reports [results], gives every variable of the weak
    relaxation the value [objective_value k] when the model holds [k]
    constraints, and every variable of the separation problem the value
    [x_hat]. *)
Definition scripted (results : SolverResults) (objective_value : nat -> num)
    (x_hat : num) : Solver :=
  fun m =>
    Ok (results,
        fun _ _ =>
          if is_weak m then Some (objective_value (length (m_constraints m)))
          else Some x_hat).

Definition all_fine : SolverResults := mkResults status_ok optimal.

(** The double [9.0001], which is 2533302937893575 / 2^48. *)
Definition d9_0001 : num := q 2533302937893575 281474976710656.

(** The objective values 10.0, 9.5, 9.0001, 9.0000. *)
Definition sequence (k : nat) : num :=
  nth k [q 10 1; q 19 2; d9_0001; q 9 1] NaN.

Definition opt_sequence : Solver := scripted all_fine sequence (q 9 1).




(** The state on entry to the loop body when the hull relaxation has an
    active objective and nothing binds the name [instance_bigm]. *)
Definition st0_unbound : State :=
  {| instance_bigm := None;
     instance_rBigm := rBigm0;
     instance_rChull := rChull0;
     improving := true;
     iteration := 0%N;
     prev_obj := PInf;
     epsilon := epsilon_default |}.



(** A variable with the two elements [z[1]] and [z['1']], whose
    dictionary keys are both ["z[1]"]. *)
Definition z : Var :=
  mkVar "z" true [(IInt 1, Some zero); (IStr "1", Some zero)].

Definition st_keys : State :=
  {| instance_bigm := Some (mkModel [x; z] [objective Bigm] []);
     instance_rBigm := mkModel [x; z] [objective RBigm] [];
     instance_rChull := mkModel [x; z] [objective RChull] [];
     improving := true;
     iteration := 0%N;
     prev_obj := PInf;
     epsilon := epsilon_default |}.

(** A solver that leaves [z[1]] = 3, [z['1']] = 5 and [x] = 0 in the weak
    relaxation and gives every variable of the separation problem the
    value 10. *)
Definition opt_keys : Solver :=
  fun m =>
    Ok (all_fine,
        fun name idx =>
          if is_weak m then
            match idx with
            | IInt _ => Some (q 3 1)
            | IStr _ => Some (q 5 1)
            | INone => Some zero
            end
          else Some (q 10 1)).

(** The state after [n] passes through the loop body ([st] again if a
    pass raises). *)
Fixpoint after (opt : Solver) (n : nat) (st : State) : State :=
  match n with
  | O => st
  | S n' =>
      match loop_body opt st with
      | Ok st' => after opt n' st'
      | Raise _ => st
      end
  end.

(** *** Runs of [_apply_to]

    The three transformations are external.  An instance comes here with
    what they give on it: the model after ['gdp.bigm'] has been applied to
    it in place, the copy of that model ['core.relax_integrality'] makes,
    and the hull relaxation ['gdp.chull'] makes, which
    ['core.relax_integrality'] then changes in no way this model keeps.
    Nothing binds the name [instance_bigm]. *)
Record Relaxed : Type := mkRelaxed {
  gdp : Model;
  bigm : Model;
  rBigm : Model;
  rChull : Model
}.

Definition bigm_apply_to (i : Relaxed) (m : Model) : Model := bigm i.

Definition chull_create_using (i : Relaxed) (m : Model) : Model := rChull i.

Definition relax_integrality (i : Relaxed) (m : Model) : Model :=
  if decide (m = bigm i) then rBigm i else m.

(** The state in which [_apply_to] enters its loop. *)
Definition entry (i : Relaxed) : State :=
  initial_state (bigm_apply_to i) (chull_create_using i)
    (relax_integrality i) None (gdp i).

(** The outcome of [_apply_to], and the objects as it leaves them. *)
Definition run (opt mip_opt : Solver) (fuel : nat) (i : Relaxed)
    : outcome State :=
  _apply_to (bigm_apply_to i) (chull_create_using i) (relax_integrality i)
    opt mip_opt None fuel (gdp i).

Definition run_store (opt mip_opt : Solver) (fuel : nat) (i : Relaxed)
    : State * outcome unit :=
  apply_to_store (bigm_apply_to i) (chull_create_using i)
    (relax_integrality i) opt mip_opt None fuel (gdp i).

(** The instance with the variables [x] and [y]; big-M adds the indicator
    variable of its disjunction, in the block [_gdp_relax_bigm].  The hull
    relaxation has no constraints. *)
Definition instance0 : Relaxed :=
  mkRelaxed (mkModel [x; y] [objective Bigm] []) bigm0 rBigm0 rChull0.

(** The instance with the variable [z]. *)
Definition instance_keys : Relaxed :=
  mkRelaxed (mkModel [x; z] [objective Bigm] [])
    (mkModel [x; z] [objective Bigm] [])
    (mkModel [x; z] [objective RBigm] [])
    (mkModel [x; z] [objective RChull] []).

(** An instance with a variable [w] declared inside a block [d], as the
    variables of a disjunct are: its name is ["d.w"]. *)
Definition w : Var := mkVar "d.w" true [(INone, Some zero)].

Definition instance_block : Relaxed :=
  mkRelaxed (mkModel [x; w] [objective Bigm] [])
    (mkModel [x; w; indicator] [objective Bigm] [])
    (mkModel [x; w; indicator] [objective RBigm] [])
    (mkModel [x; w] [objective RChull] []).

End Example.

(** * [create_subsystem_block] ([pyomo/util/subsystems.py], lines 17-52) *)

Module SubsystemBlock.
Import Subsystems.

Section Block.

(** The constraint objects; what [identify_variables(con.body,
    include_fixed=...)] of [pyomo.core.expr.visitor] yields for one of them
    is not among the sources and is taken as given. *)
Context {Con : Type}.
Variable identify_variables : Con -> bool -> list ref.

(** The block returned: [block.vars], [block.cons] and
    [block.input_vars], each the list a [Reference] was made of. *)
Record Block : Type := mkBlock {
  block_vars : list ref;
  block_cons : list Con;
  block_input_vars : list ref
}.

(** Lines 48-50, for one variable: [input_vars] and the [ComponentSet]
    [var_set]. *)
Definition scan_variable (acc : list ref * gset ref) (var : ref)
    : list ref * gset ref :=
  let '(input_vars, var_set) := acc in
  if decide (var ∈ var_set) then acc
  else ((input_vars ++ [var])%list, var_set ∪ {[var]}).

(** Lines 47-50, for one constraint. *)
Definition scan_constraint (include_fixed : bool)
    (acc : list ref * gset ref) (con : Con) : list ref * gset ref :=
  fold_left scan_variable (identify_variables con include_fixed) acc.

Definition create_subsystem_block (constraints : list Con)
    (variables : option (list ref)) (include_fixed : bool) : Block :=
  let variables := default [] variables in
  let var_set : gset ref := list_to_set variables in
  let acc := fold_left (scan_constraint include_fixed) constraints
               ([], var_set) in
  mkBlock variables constraints acc.1.

End Block.

End SubsystemBlock.

(** * [ParamSweeper] ([pyomo/util/subsystems.py], lines 106-177) *)

Module Sweeper.
Import Subsystems.

(** What [__next__] raises. *)
Inductive sweep_exn : Type :=
| StopIteration
| IndexError.

Section Sweeper.

Context {value : Type}.

(** The sweeper: the attributes it inherits from
    [TemporarySubsystemManager], and its own.  A [ComponentMap] from
    components to lists of values is the list of its items, in the order
    iteration yields them.  ([initial_state_values] is set to [None] and
    never read.) *)
Record ParamSweeper : Type := mkSweeper {
  manager : @TemporarySubsystemManager value;
  input_values : list (ref * list value);
  output_values : list (ref * list value);
  n_scenario : Z;
  _ip : Z
}.

(** [values[i]] on a Python list: a negative index counts from the end. *)
Definition list_getitem (values : list value) (i : Z) : option value :=
  if (0 <=? i)%Z then values !! Z.to_nat i
  else if (- Z.of_nat (length values) <=? i)%Z
       then values !! Z.to_nat (Z.of_nat (length values) + i)
       else None.

(** Every list of [items] has an element [i]. *)
Definition all_have (i : Z) (items : list (ref * list value)) : Prop :=
  Forall (fun item => is_Some (list_getitem item.2 i)) items.

(** Every list of [items] has at least [n] elements. *)
Definition all_long (n : Z) (items : list (ref * list value)) : Prop :=
  Forall (fun item => (n <= Z.of_nat (length item.2))%Z) items.

(** [__init__]: the input variables are added to [to_reset]. *)
Definition __init__ (n_scenario : Z)
    (input_values : list (ref * list value))
    (output_values : option (list (ref * list value)))
    (to_fix to_deactivate to_reset : option (list ref)) : ParamSweeper :=
  let output_values := default [] output_values in
  let to_reset :=
    match to_reset with
    | None => map fst input_values
    | Some to_reset => (to_reset ++ map fst input_values)%list
    end in
  mkSweeper (Subsystems.__init__ to_fix to_deactivate (Some to_reset))
    input_values output_values n_scenario (-1).

(** Lines 168-171: the loop over [input_values.items()].  It stops at the
    first list that has no element [i]; the values set before stay set. *)
Fixpoint set_inputs (i : Z) (items : list (ref * list value))
    (inputs : gmap ref value) (s : @Store value)
    : @Store value * option (gmap ref value) :=
  match items with
  | [] => (s, Some inputs)
  | (var, values) :: items' =>
      match list_getitem values i with
      | Some val =>
          set_inputs i items' (<[var := val]> inputs) (set_value var val s)
      | None => (s, None)
      end
  end.

(** Lines 173-175: [ComponentMap([(var, values[i]) for ...])]. *)
Fixpoint get_outputs (i : Z) (items : list (ref * list value))
    (outputs : gmap ref value) : option (gmap ref value) :=
  match items with
  | [] => Some outputs
  | (var, values) :: items' =>
      match list_getitem values i with
      | Some val => get_outputs i items' (<[var := val]> outputs)
      | None => None
      end
  end.

Definition with_ip (self : ParamSweeper) (ip : Z) : ParamSweeper :=
  mkSweeper (manager self) (input_values self) (output_values self)
    (n_scenario self) ip.

(** [__next__]: the sweeper and the store afterwards, and the pair
    [(inputs, outputs)] returned or the exception raised. *)
Definition __next__ (self : ParamSweeper) (s : @Store value)
    : ParamSweeper * @Store value
      * (sweep_exn + gmap ref value * gmap ref value) :=
  let self := with_ip self (_ip self + 1) in
  let i := _ip self in
  if (n_scenario self <=? i)%Z then
    (with_ip self (-1), s, inl StopIteration)
  else
    match set_inputs i (input_values self) ∅ s with
    | (s, None) => (self, s, inl IndexError)
    | (s, Some inputs) =>
        match get_outputs i (output_values self) ∅ with
        | None => (self, s, inl IndexError)
        | Some outputs => (self, s, inr (inputs, outputs))
        end
    end.

(** [for inputs, outputs in self: body(inputs, outputs)]: the sweeper,
    the store and the number of times the body ran when the loop ends by
    [StopIteration]; [None] when [IndexError] escapes or the fuel runs
    out. *)
Fixpoint for_scenarios (fuel : nat)
    (body : gmap ref value -> gmap ref value -> @Store value -> @Store value)
    (self : ParamSweeper) (s : @Store value)
    : option (ParamSweeper * @Store value * nat) :=
  match fuel with
  | O => None
  | S fuel' =>
      match __next__ self s with
      | (self, s, inl StopIteration) => Some (self, s, O)
      | (self, s, inl IndexError) => None
      | (self, s, inr (inputs, outputs)) =>
          match for_scenarios fuel' body self (body inputs outputs s) with
          | Some (self, s, n) => Some (self, s, S n)
          | None => None
          end
      end
  end.

(** [with self: ...]: the inherited [__enter__] and [__exit__]. *)
Definition __enter__ (self : ParamSweeper) (s : @Store value)
    : ParamSweeper * @Store value :=
  let '(m, s) := Subsystems.__enter__ (manager self) s in
  (mkSweeper m (input_values self) (output_values self) (n_scenario self)
     (_ip self), s).

Definition __exit__ (self : ParamSweeper) (s : @Store value)
    : option (@Store value) :=
  Subsystems.__exit__ (manager self) s.

End Sweeper.

End Sweeper.
(** * Properties *)

(** Closed facts about the example instances are settled by running the
    definitions. *)
Ltac run := vm_compute; reflexivity.

(** ** Loops *)

Section ForEach.

Context {A S : Type}.

(** A loop that completes has run its body on every element: when each
    successful pass of the body over an element of [l] computes [f] and
    establishes [P], the loop computes the fold of [f] and [P] holds
    of all of [l]. *)
Lemma for_each_fold (body : S -> A -> result S) (f : S -> A -> S)
    (P : A -> Prop) l :
  (forall s a s', a ∈ l -> body s a = Ok s' -> s' = f s a /\ P a) ->
  forall s s', for_each body l s = Ok s' ->
    s' = fold_left f l s /\ Forall P l.
Proof.
  induction l as [|a l IH]; intros Hbody s s' Hrun; simpl in *.
  - split; [congruence | constructor].
  - destruct (body s a) as [s1|e] eqn:Hs1; [|done].
    destruct (Hbody s a s1) as [-> Ha]; [left | done |].
    destruct (IH (fun s a s' Hin => Hbody s a s' (list_elem_of_further _ _ _ Hin))
                _ _ Hrun) as [-> Hl].
    split; [done | by constructor].
Qed.

End ForEach.

Lemma fold_left_flat_map {A B S : Type} (f : S -> B -> S) (g : A -> list B)
    (l : list A) (s : S) :
  fold_left f (flat_map g l) s = fold_left (fun s a => fold_left f (g a) s) l s.
Proof.
  revert s. induction l as [|a l IH]; intros s; simpl; [done|].
  by rewrite fold_left_app, IH.
Qed.

Lemma fold_left_pair {A S T : Type} (f : S -> A -> S) (g : T -> A -> T)
    (l : list A) (s : S) (t : T) :
  fold_left (fun st a => (f st.1 a, g st.2 a)) l (s, t)
  = (fold_left f l s, fold_left g l t).
Proof. revert s t. induction l as [|a l IH]; intros s t; simpl; [done|apply IH]. Qed.

Lemma for_each_filter {A S : Type} (c : A -> bool)
    (body : S -> A -> result S) (l : list A) (s : S) :
  for_each (fun s a => if c a then body s a else Ok s) l s
  = for_each body (filter (fun a => c a = true) l) s.
Proof.
  revert s. induction l as [|a l IH]; intros s; simpl; [done|].
  rewrite filter_cons. destruct (c a) eqn:Hc.
  - rewrite decide_True by done. simpl. destruct (body s a); [apply IH|done].
  - rewrite decide_False by done. apply IH.
Qed.

Lemma fold_left_map_list {A B S : Type} (f : S -> B -> S) (g : A -> B)
    (l : list A) (s : S) :
  fold_left f (map g l) s = fold_left (fun s a => f s (g a)) l s.
Proof. revert s. induction l as [|a l IH]; intros s; simpl; [done|apply IH]. Qed.

Lemma Forall_flat_map {A B : Type} (P : B -> Prop) (g : A -> list B)
    (l : list A) :
  Forall (fun a => Forall P (g a)) l -> Forall P (flat_map g l).
Proof.
  induction 1 as [|a l Ha _ IH]; simpl; [constructor|].
  by apply Forall_app.
Qed.

(** ** What a solve and the installation of a cut leave unchanged *)

Lemma solve_inv opt m results m' :
  solve opt m = Ok (results, m') ->
  exists sol, opt m = Ok (results, sol) /\ m' = load_solution sol m.
Proof.
  unfold solve. destruct (opt m) as [[r sol]|e]; simpl; [|done].
  intros [= <- <-]. eauto.
Qed.

(** ** One pass through the loop body, step by step *)

Section Iteration.

Variable opt : Solver.

(** [completes st st']: the body, started in [st], runs to its end
    without an exception and leaves [st']. *)
Inductive completes (st : State) : State -> Prop :=
| completes_intro rBigm rBigm_objVal obj_expr x_star obj_name rChull_obj
    results rChull cutexpr_bigm cutexpr_rBigm bigm bigm' rBigm' :
    weak_relaxation opt st = Ok (rBigm, rBigm_objVal) ->
    separation_problem rBigm (instance_rChull st) = Ok (obj_expr, x_star) ->
    next_active_objective (instance_rChull st) = Ok obj_name ->
    getattr_Objective (instance_rChull st) (o_name obj_name)
      = Ok rChull_obj ->
    solve opt (set_objective_expr (instance_rChull st) obj_expr)
      = Ok (results, rChull) ->
    cut_expressions (instance_bigm st) rBigm rChull x_star
      = Ok (cutexpr_bigm, cutexpr_rBigm) ->
    instance_bigm st = Some bigm ->
    add_component bigm (cut_name (iteration st)) cutexpr_bigm = Ok bigm' ->
    add_component rBigm (cut_name (iteration st)) cutexpr_rBigm = Ok rBigm' ->
    completes st
      {| instance_bigm := Some bigm';
         instance_rBigm := rBigm';
         instance_rChull := rChull;
         improving := gtb (sub (prev_obj st) rBigm_objVal) (epsilon st);
         iteration := (iteration st + 1)%N;
         prev_obj := rBigm_objVal;
         epsilon := epsilon st |}.

Lemma loop_body_completes st st' :
  loop_body opt st = Ok st' <-> completes st st'.
Proof.
  split.
  - unfold loop_body.
    destruct (weak_relaxation opt st) as [[rB val]|] eqn:Hweak; simpl; [|done].
    destruct (separation_problem rB _) as [[oe xs]|] eqn:Hsep; simpl; [|done].
    destruct (next_active_objective _) as [o|] eqn:Hobj; simpl; [|done].
    destruct (getattr_Objective _ _) as [o'|] eqn:Hobj'; simpl; [|done].
    destruct (solve opt _) as [[res rC]|] eqn:Hsolve; simpl; [|done].
    destruct (cut_expressions _ _ _ _) as [[cb cr]|] eqn:Hcut; simpl; [|done].
    destruct (instance_bigm st) as [bigm|] eqn:Hbigm; simpl; [|done].
    destruct (add_component bigm _ _) as [bigm'|] eqn:Hadd1; simpl; [|done].
    destruct (add_component rB _ _) as [rB'|] eqn:Hadd2; simpl; [|done].
    intros [= <-]. econstructor; eauto. by rewrite Hbigm.
  - intros [rB val oe xs o o' res rC cb cr bigm bigm' rB'
            Hweak Hsep Hobj Hobj' Hsolve Hcut Hbigm Hadd1 Hadd2].
    unfold loop_body. rewrite Hweak; simpl. rewrite Hsep; simpl.
    rewrite Hobj; simpl. rewrite Hobj'; simpl. rewrite Hsolve; simpl.
    rewrite Hcut; simpl.
    rewrite Hbigm; simpl. rewrite Hadd1; simpl. by rewrite Hadd2.
Qed.

End Iteration.

(** ** Elements of variables *)

Lemma item_indices v idx x : item v idx = Some x -> idx ∈ indices v.
Proof.
  unfold item, indices. destruct (List.find _ _) as [d|] eqn:Hfind; [|done].
  intros _. apply find_some in Hfind as [Hin Heq].
  apply bool_decide_eq_true in Heq as <-.
  apply list_elem_of_In, in_map, Hin.
Qed.

Lemma getitem_Ok v idx x : getitem v idx = Ok x -> item v idx = Some x.
Proof. unfold getitem. destruct (item v idx); simpl; congruence. Qed.

Lemma number_Ok value x : number value = Ok x -> value = Some x.
Proof. destruct value; simpl; congruence. Qed.

Lemma var_value_getattr m name v idx :
  getattr m name = Ok v -> var_value m name idx = mjoin (item v idx).
Proof.
  unfold var_value, getattr. destruct (occurs "." name); [done|].
  destruct (find_var m name); simpl; congruence.
Qed.

Lemma point_of_getitem m name v idx x :
  getattr m name = Ok v -> getitem v idx = Ok (Some x) ->
  var_value m name idx = Some x /\ point_of m name idx = x.
Proof.
  intros Hv Hx. apply getitem_Ok in Hx. unfold point_of.
  rewrite (var_value_getattr _ _ _ _ Hv), Hx. done.
Qed.

(** ** The separation problem (lines 72-83) *)

Lemma separation_problem_fold rBigm rChull obj_expr x_star :
  separation_problem rBigm rChull = Ok (obj_expr, x_star) ->
  obj_expr = separation_objective (point_of rBigm) (candidate_handles rBigm) /\
  x_star = x_star_of (point_of rBigm) (candidate_handles rBigm) /\
  Forall (fun h => is_Some (var_value rBigm h.1 h.2) /\
                   has_element rChull h.1 h.2)
    (candidate_handles rBigm).
Proof.
  unfold separation_problem, separation_outer. intros Hrun.
  rewrite (for_each_filter (fun v => negb (is_indicator (v_name v)))) in Hrun.
  pose (step := fun (acc : expr * gmap string num) (h : string * index) =>
    (EAdd acc.1 (separation_term h.1 h.2 (point_of rBigm h.1 h.2)),
     <[handle_key h := point_of rBigm h.1 h.2]> acc.2)).
  apply (for_each_fold _
           (fun acc v => fold_left step (handles_in rBigm v) acc)
           (fun v => Forall (fun h => is_Some (var_value rBigm h.1 h.2) /\
                                      has_element rChull h.1 h.2)
                       (handles_in rBigm v))) in Hrun.
  - destruct Hrun as [Hfold Hall].
    rewrite <- (fold_left_flat_map step (handles_in rBigm)) in Hfold.
    unfold step in Hfold.
    rewrite (fold_left_pair
               (fun e h => EAdd e (separation_term h.1 h.2 (point_of rBigm h.1 h.2)))
               (fun (m : gmap string num) h =>
                  <[handle_key h := point_of rBigm h.1 h.2]> m)) in Hfold.
    injection Hfold as -> ->. repeat split; try done.
    by apply Forall_flat_map.
  - intros acc v acc' _. unfold handles_in.
    destruct (getattr rBigm (v_name v)) as [vo|] eqn:Hvo; simpl; [|done].
    destruct (getattr rChull (v_name v)) as [sv|] eqn:Hsv; simpl; [|done].
    intros Hinner.
    apply (for_each_fold _ (fun acc idx => step acc (v_name v, idx))
             (fun idx => is_Some (var_value rBigm (v_name v) idx) /\
                         has_element rChull (v_name v) idx))
      in Hinner.
    + destruct Hinner as [-> Hall]. split.
      * by rewrite fold_left_map_list.
      * by apply Forall_map.
    + intros [oe xs] idx acc1 _. unfold separation_inner.
      destruct (getitem vo idx) as [val|] eqn:Hval; simpl; [|done].
      destruct (getitem sv idx) as [val'|] eqn:Hval'; simpl; [|done].
      destruct (number val) as [x|] eqn:Hx; simpl; [|done].
      apply number_Ok in Hx as ->.
      intros [= <-].
      destruct (point_of_getitem _ _ _ _ _ Hvo Hval) as [Hsome Hpoint].
      unfold step, handle_key; simpl. rewrite Hpoint, Hsome.
      split; [done|]. split; [eauto|].
      exists sv. split; [done|]. apply getitem_Ok in Hval'.
      by eapply item_indices.
Qed.

(** ** The dictionary [x_star] *)

Lemma x_star_fold_notin (x : point) hs (m : gmap string num) k :
  k ∉ map handle_key hs ->
  fold_left (fun m h => <[handle_key h := x h.1 h.2]> m) hs m !! k = m !! k.
Proof.
  revert m. induction hs as [|h hs IH]; intros m Hk; simpl; [done|].
  simpl in Hk. apply not_elem_of_cons in Hk as [Hne Hk].
  rewrite IH by done. by apply lookup_insert_ne.
Qed.

(** Its keys are the keys of the handles. *)
Lemma x_star_of_dom (x : point) hs k :
  is_Some (x_star_of x hs !! k) <-> k ∈ map handle_key hs.
Proof.
  assert (forall m : gmap string num,
    is_Some (fold_left (fun m h => <[handle_key h := x h.1 h.2]> m) hs m !! k)
    <-> k ∈ map handle_key hs \/ is_Some (m !! k)) as Hgen.
  { induction hs as [|a hs IH]; intros m; simpl.
    - rewrite elem_of_nil. tauto.
    - rewrite IH, elem_of_cons, lookup_insert.
      case_decide as Hk; simpl.
      + split; [intros _; left; by left | intros _; right; eauto].
      + split.
        * intros [?|?]; [left; by right | by right].
        * intros [[?|?]|?]; [congruence | by left | by right]. }
  unfold x_star_of. rewrite Hgen, lookup_empty. split.
  - intros [?|[? ?]]; done.
  - by left.
Qed.


(** ** The objects when a pass ends *)

(** [pass_store] and [loop_body] are the same pass: one keeps the objects,
    the other the result. *)
Lemma pass_store_result opt st :
  loop_body opt st =
  match pass_store opt st with
  | (st', None) => Ok st'
  | (_, Some e) => Raise e
  end.
Proof.
  unfold loop_body, weak_relaxation, pass_store.
  destruct (solve opt (instance_rBigm st)) as [[res rB]|]; simpl; [|done].
  destruct (next_active_objective rB) as [o|]; simpl; [|done].
  destruct (getattr_Objective rB _) as [o'|]; simpl; [|done].
  destruct (expr_value _ _) as [val|]; simpl; [|done].
  destruct (separation_problem rB _) as [[oe xs]|]; simpl; [|done].
  destruct (next_active_objective (instance_rChull st)) as [c|]; simpl; [|done].
  destruct (getattr_Objective (instance_rChull st) _) as [c'|]; simpl; [|done].
  destruct (solve opt _) as [[res' rC]|]; simpl; [|done].
  destruct (cut_expressions _ _ _ _) as [[cb cr]|]; simpl; [|done].
  destruct (instance_bigm st) as [bigm|]; simpl; [|done].
  destruct (add_component bigm _ _) as [bigm'|]; simpl; [|done].
  by destruct (add_component rB _ _) as [rB'|].
Qed.

Lemma loop_store_result opt fuel st :
  while_improving opt fuel st =
  match loop_store opt fuel st with
  | (st', Returned _) => Returned st'
  | (_, Raised e) => Raised e
  | (_, OutOfFuel) => OutOfFuel
  end.
Proof.
  revert st. induction fuel as [|fuel IH]; intros st; simpl.
  - by destruct (improving st).
  - destruct (improving st); [|done].
    rewrite pass_store_result.
    destruct (pass_store opt st) as [st' [e|]]; [done|apply IH].
Qed.

Lemma apply_to_store_result bigm_apply_to chull_create_using
    relax_integrality opt mip_opt g fuel instance :
  _apply_to bigm_apply_to chull_create_using relax_integrality opt mip_opt g
    fuel instance =
  match apply_to_store bigm_apply_to chull_create_using relax_integrality
          opt mip_opt g fuel instance with
  | (st', Returned _) => Returned st'
  | (_, Raised e) => Raised e
  | (_, OutOfFuel) => OutOfFuel
  end.
Proof.
  unfold _apply_to, apply_to_store. rewrite loop_store_result.
  destruct (loop_store opt fuel _) as [st' [[]|e|]]; try done.
  by destruct (solve_mip mip_opt st').
Qed.

(** *** A pass started without an active objective in the hull relaxation *)

Lemma find_active_deactivated os :
  List.find o_active (map (fun o => mkObjective (o_name o) false (o_expr o)) os)
  = None.
Proof. by induction os. Qed.

Lemma next_active_objective_deactivated m :
  next_active_objective (deactivate_objectives m) = Raise StopIteration.
Proof.
  unfold next_active_objective, deactivate_objectives; simpl.
  by rewrite find_active_deactivated.
Qed.

Lemma loop_body_no_active_objective opt st :
  next_active_objective (instance_rChull st) = Raise StopIteration ->
  loop_body opt st =
  match weak_relaxation opt st with
  | Ok (rBigm, _) =>
      match separation_problem rBigm (instance_rChull st) with
      | Ok _ => Raise StopIteration
      | Raise e => Raise e
      end
  | Raise e => Raise e
  end.
Proof.
  intros Hnone. unfold loop_body.
  destruct (weak_relaxation opt st) as [[rB val]|]; simpl; [|done].
  destruct (separation_problem rB _) as [[oe xs]|]; simpl; [|done].
  by rewrite Hnone.
Qed.

(** Such a pass ends by an exception, after at most the solve of the weak
    relaxation has changed an object. *)
Lemma pass_store_no_active_objective opt st :
  next_active_objective (instance_rChull st) = Raise StopIteration ->
  exists st' e, pass_store opt st = (st', Some e) /\ first_pass st st'.
Proof.
  intros Hnone. unfold pass_store.
  destruct (solve opt (instance_rBigm st)) as [[res rB]|e] eqn:Hsolve.
  - apply solve_inv in Hsolve as (sol & _ & ->). simpl.
    rewrite Hnone.
    set (rB := load_solution sol (instance_rBigm st)).
    destruct (next_active_objective rB) as [o|]; simpl;
      [|eexists _, _; split; [reflexivity|constructor]].
    destruct (getattr_Objective rB (o_name o)) as [o'|]; simpl;
      [|eexists _, _; split; [reflexivity|constructor]].
    destruct (expr_value _ (o_expr o')) as [val|]; simpl;
      [|eexists _, _; split; [reflexivity|constructor]].
    destruct (separation_problem rB (instance_rChull st)) as [[oe xs]|]; simpl;
      eexists _, _; (split; [reflexivity|constructor]).
  - eexists _, _. split; [reflexivity|constructor].
Qed.

Lemma loop_store_no_active_objective opt fuel st :
  improving st = true ->
  next_active_objective (instance_rChull st) = Raise StopIteration ->
  exists st' e,
    pass_store opt st = (st', Some e) /\
    loop_store opt (S fuel) st = (st', Raised e) /\ first_pass st st'.
Proof.
  intros Himp Hnone.
  destruct (pass_store_no_active_objective opt st Hnone) as (st' & e & Hpass & Hfirst).
  exists st', e. simpl. by rewrite Himp, Hpass.
Qed.

(** What [_apply_to] does to the objects, for every instance, solver and
    pair of relaxations: the run ends by an exception in the first pass,
    at most the solution of the weak relaxation loaded. *)
Lemma apply_to_store_first_pass bigm_apply_to chull_create_using
    relax_integrality opt mip_opt g fuel instance :
  let st := initial_state bigm_apply_to chull_create_using relax_integrality
              g instance in
  exists st' e,
    pass_store opt st = (st', Some e) /\
    loop_store opt (S fuel) st = (st', Raised e) /\
    apply_to_store bigm_apply_to chull_create_using relax_integrality opt
      mip_opt g (S fuel) instance = (st', Raised e) /\
    first_pass st st'.
Proof.
  intros st.
  destruct (loop_store_no_active_objective opt fuel st) as (st' & e & Hpass & Hloop & Hfirst).
  - done.
  - apply next_active_objective_deactivated.
  - exists st', e. split; [done|]. split; [done|]. split; [|done].
    unfold apply_to_store. fold st. by rewrite Hloop.
Qed.


(** ** The name [instance_bigm] (lines 28-38, 103, 112 and 129) *)

(** C5, the defect.  [_apply_to] never assigns [instance_bigm]: on entry
    to the loop the name has whatever binding it has outside the function.
    When it has none, no pass through the loop body completes, so no cut is
    installed in either instance, and the final MIP solve raises
    [NameError]; on the example instance the first pass raises it at line
    103. *)
Theorem instance_bigm_is_never_assigned :
  (forall bigm_apply_to chull_create_using relax_integrality g instance,
     instance_bigm (initial_state bigm_apply_to chull_create_using
                      relax_integrality g instance) = g) /\
  (forall opt st, instance_bigm st = None ->
     exists e, loop_body opt st = Raise e) /\
  (forall mip_opt st, instance_bigm st = None ->
     solve_mip mip_opt st = Raise (NameError "instance_bigm")) /\
  loop_body Example.opt_sequence Example.st0_unbound
    = Raise (NameError "instance_bigm").
Proof.
  split; [done|]. split; [|split].
  - intros opt st Hnone.
    destruct (loop_body opt st) as [st'|e] eqn:Hbody; [|by eexists].
    apply loop_body_completes in Hbody. destruct Hbody. congruence.
  - intros mip_opt st Hnone. unfold solve_mip. by rewrite Hnone.
  - vm_compute. reflexivity.
Qed.

(** ** The objective of the separation problem (lines 48-49 and 86-89) *)

(** C6, the defect.  Lines 48-49 deactivate every objective of the hull
    relaxation, and nothing activates one again; lines 86-87 then ask it
    for its first active objective.  So in [_apply_to] the first pass
    through the loop body never gets to install the separation objective
    or to call the solver on the separation problem: it raises
    [StopIteration] at line 87 unless an earlier line has raised, and
    [_apply_to] ends with an exception. *)
Theorem separation_objective_is_never_installed
    bigm_apply_to chull_create_using relax_integrality opt mip_opt g
    instance fuel :
  let st := initial_state bigm_apply_to chull_create_using
              relax_integrality g instance in
  next_active_objective (instance_rChull st) = Raise StopIteration /\
  (forall rBigm objVal acc,
     weak_relaxation opt st = Ok (rBigm, objVal) ->
     separation_problem rBigm (instance_rChull st) = Ok acc ->
     loop_body opt st = Raise StopIteration) /\
  (exists e, loop_body opt st = Raise e) /\
  (exists e,
     _apply_to bigm_apply_to chull_create_using relax_integrality opt
       mip_opt g (S fuel) instance = Raised e).
Proof.
  intros st.
  assert (next_active_objective (instance_rChull st) = Raise StopIteration)
    as Hnone by apply next_active_objective_deactivated.
  pose proof (loop_body_no_active_objective opt st Hnone) as Hbody.
  assert (exists e, loop_body opt st = Raise e) as [e He].
  { rewrite Hbody. destruct (weak_relaxation opt st) as [[rB val]|]; [|by eexists].
    destruct (separation_problem rB _); by eexists. }
  split; [done|]. split; [|split].
  - intros rB val acc Hweak Hsep. by rewrite Hbody, Hweak, Hsep.
  - by exists e.
  - exists e. unfold _apply_to. fold st. simpl. by rewrite He.
Qed.

(** When the hull relaxation does have an active objective, the pass sets
    its expression to [sum_i (v_i - x_B[i])**2] over the elements of the
    registered variables, and leaves the other objectives as they are. *)
Lemma separation_objective_installed opt st st' :
  completes opt st st' ->
  exists rBigm objVal results sol,
    weak_relaxation opt st = Ok (rBigm, objVal) /\
    let obj_expr :=
      separation_objective (point_of rBigm) (candidate_handles rBigm) in
    opt (set_objective_expr (instance_rChull st) obj_expr)
      = Ok (results, sol) /\
    m_objectives (instance_rChull st')
      = set_first_active obj_expr (m_objectives (instance_rChull st)).
Proof.
  intros [rB val oe xs o o' res rC cb cr bigm bigm' rB'
            Hweak Hsep Hobj Hobj' Hsolve Hcut Hbigm Hadd1 Hadd2].
  apply separation_problem_fold in Hsep as (-> & _ & _).
  apply solve_inv in Hsolve as (sol & Hopt & ->).
  exists rB, val, res, sol. simpl. done.
Qed.

(** ** The runs of the example instance *)

(** On an example, the run of [_apply_to] with any amount of fuel is the
    end of its first pass. *)
Lemma run_store_first_pass opt mip_opt fuel i e :
  (pass_store opt (Example.entry i)).2 = Some e ->
  Example.run_store opt mip_opt (S fuel) i
    = ((pass_store opt (Example.entry i)).1, Raised e) /\
  Example.run opt mip_opt (S fuel) i = Raised e.
Proof.
  intros Hpass. unfold Example.run, Example.run_store.
  rewrite apply_to_store_result.
  destruct (apply_to_store_first_pass (Example.bigm_apply_to i)
              (Example.chull_create_using i) (Example.relax_integrality i)
              opt mip_opt None fuel (Example.gdp i))
    as (st1 & e1 & Hpass1 & _ & -> & _).
  fold (Example.entry i) in Hpass1.
  rewrite Hpass1 in *. simpl in *. by injection Hpass as ->.
Qed.

(** ** The convergence rule (lines 42-46 and 118-124) *)


(** ** No signal of convergence (lines 94-118) *)


(** ** The objective sequence 10.0, 9.5, 9.0001, 9.0000 *)


(** ** No second pass (lines 59-124) *)


(** ** The candidate point under its string keys (lines 70-83 and 107) *)

(** C2, the defect.  The candidate [x_B] is kept in a dictionary under the
    key [var_name + "[" + str(index) + "]"], and the integer index [i] and
    the string index [str(i)] give the same key.  On the instance with the
    variable [z] indexed by [1] and ['1'], the weak relaxation is solved
    with [z[1]] = 3 and [z['1']] = 5; lines 72-83 then leave two entries
    for the three elements, and under the key of [z[1]] the value 5 of
    [z['1']]: the candidate value from which line 107 would take the
    coefficient of [z[1]] is not [x_B[z[1]]].  The run then ends with
    [StopIteration], and no cut has been built or added. *)
Theorem candidate_keys_collide :
  (forall name (i : Z),
     x_star_key name (IInt i) = x_star_key name (IStr (pretty i))) /\
  let st := Example.entry Example.instance_keys in
  let rBigm := instance_rBigm (pass_store Example.opt_keys st).1 in
  weak_relaxation Example.opt_keys st = Ok (rBigm, zero) /\
  candidate_handles rBigm = [("x", INone); ("z", IInt 1); ("z", IStr "1")] /\
  point_of rBigm "z" (IInt 1) = Example.q 3 1 /\
  point_of rBigm "z" (IStr "1") = Example.q 5 1 /\
  (exists obj_expr x_star,
     separation_problem rBigm (instance_rChull st) = Ok (obj_expr, x_star) /\
     size x_star = 2%nat /\
     x_star !! x_star_key "z" (IInt 1) = Some (Example.q 5 1) /\
     dict_point x_star "z" (IInt 1) <> point_of rBigm "z" (IInt 1)) /\
  forall fuel,
    Example.run_store Example.opt_keys Example.opt_keys (S fuel)
      Example.instance_keys
    = ((pass_store Example.opt_keys st).1, Raised StopIteration) /\
    m_constraints rBigm = [] /\
    instance_bigm (pass_store Example.opt_keys st).1 = None.
Proof.
  split; [done|]. intros st rBigm.
  split; [run|]. split; [run|]. split; [run|]. split; [run|]. split.
  - destruct (separation_problem rBigm (instance_rChull st))
      as [[oe xs]|e] eqn:Hsep; [|exfalso; revert Hsep; vm_compute; discriminate].
    exists oe, xs. split; [done|].
    apply separation_problem_fold in Hsep as (_ & -> & _).
    split; [run|]. split; [run|].
    unfold dict_point. vm_compute. discriminate.
  - intros fuel. split; [|split; run].
    by apply run_store_first_pass.
Qed.

(** ** The results of the solves (lines 59-92) *)







(** ** Which variables the candidate point ranges over (lines 74-83) *)

Lemma prefix_iff p s :
  String.prefix p s = true <-> exists rest, s = p +:+ rest.
Proof.
  revert s. induction p as [|a p IH]; intros s; simpl.
  - split; [intros _; by exists s | by destruct s].
  - assert (forall rest, String a p +:+ rest = String a (p +:+ rest)) as Happ
      by done.
    destruct s as [|b s]; simpl.
    + split; [done|]. intros [rest Hrest]. by rewrite Happ in Hrest.
    + destruct (ascii_dec a b) as [->|Hne].
      * rewrite IH. split; intros [rest Hrest]; exists rest.
        -- by rewrite Happ, Hrest.
        -- rewrite Happ in Hrest. by injection Hrest.
      * split; [done|]. intros [rest Hrest]. rewrite Happ in Hrest.
        by injection Hrest.
Qed.

Lemma is_indicator_spec name :
  is_indicator name = true <-> has_indicator_prefix name.
Proof. apply prefix_iff. Qed.

Lemma is_indicator_false name :
  is_indicator name = false <-> ~ has_indicator_prefix name.
Proof.
  rewrite <- is_indicator_spec. by destruct (is_indicator name).
Qed.

Lemma elem_of_registered m v :
  v ∈ registered m <->
  v ∈ m_vars m /\ v_active v = true /\ ~ has_indicator_prefix (v_name v).
Proof.
  unfold registered, component_objects_Var.
  rewrite !list_elem_of_filter, negb_true_iff, is_indicator_false. tauto.
Qed.

Lemma elem_of_handles_in m v h :
  h ∈ handles_in m v <-> v_name v = h.1 /\ has_element m h.1 h.2.
Proof.
  unfold handles_in, has_element. destruct h as [name idx]; simpl. split.
  - destruct (getattr m (v_name v)) as [var|] eqn:Hvar.
    + rewrite list_elem_of_In, in_map_iff. intros (i & [= <- <-] & Hin).
      split; [done|]. exists var. split; [done|]. by apply list_elem_of_In.
    + by intros ?%elem_of_nil.
  - intros [<- (var & -> & Hidx)].
    by apply list_elem_of_In, in_map, list_elem_of_In.
Qed.

(** The handles of the candidate point, without the test of the code. *)
Lemma elem_of_candidate_handles m name idx :
  (name, idx) ∈ candidate_handles m <->
  (exists v, v ∈ m_vars m /\ v_active v = true /\ v_name v = name) /\
  ~ has_indicator_prefix name /\ has_element m name idx.
Proof.
  unfold candidate_handles. rewrite list_elem_of_In, in_flat_map. split.
  - intros (v & Hv & Hh).
    apply list_elem_of_In, elem_of_registered in Hv as (Hv & Hact & Hpre).
    apply list_elem_of_In, elem_of_handles_in in Hh as [Hname Hel].
    simpl in *. subst name. split; [by exists v|done].
  - intros ((v & Hv & Hact & <-) & Hpre & Hel). exists v. split.
    + by apply list_elem_of_In, elem_of_registered.
    + by apply list_elem_of_In, elem_of_handles_in.
Qed.

Lemma expr_vars_separation_fold (x : point) hs e :
  expr_vars
    (fold_left (fun acc h => EAdd acc (separation_term h.1 h.2 (x h.1 h.2)))
       hs e)
  = (expr_vars e ++ map (pair RChull) hs)%list.
Proof.
  revert e. induction hs as [|h hs IH]; intros e; simpl.
  - by rewrite app_nil_r.
  - rewrite IH. simpl. destruct h. by rewrite <- app_assoc.
Qed.

(** A loop whose body raises at some element of the list, whatever it is
    started with, raises. *)
Lemma for_each_raises {A S : Type} (body : S -> A -> result S) l a :
  a ∈ l -> (forall s, exists e, body s a = Raise e) ->
  forall s, exists e, for_each body l s = Raise e.
Proof.
  intros Hin Hraise. induction l as [|b l IH]; intros s.
  - by apply elem_of_nil in Hin.
  - simpl. apply elem_of_cons in Hin as [<-|Hin].
    + destruct (Hraise s) as [e ->]. by exists e.
    + destruct (body s b) as [s'|e]; [by apply IH | by exists e].
Qed.

(** C7, the defect.  When lines 72-83 run to their end, the candidate
    point [x_star] has an entry for exactly the elements of the active
    variables of the weak relaxation whose name does not start with
    ["_gdp_relax_bigm."], and the separation objective mentions exactly
    the same elements, of the hull relaxation.  But they run to their end
    only when each of these variables is a component of the model itself:
    for a variable inside a block, whose name has a dot, [getattr] raises
    at line 78, and the variable gets no coefficient.  On the example
    instance the candidate point has the elements of [x] and [y] and not
    that of the indicator variable; with the variable [d.w] the run ends
    with [AttributeError] in its first pass.  The loop over the same
    variables that builds the cut (lines 98-110) is not reached in either
    run. *)
Theorem candidate_point_variables :
  (forall rBigm rChull obj_expr x_star,
     separation_problem rBigm rChull = Ok (obj_expr, x_star) ->
     (forall k,
        is_Some (x_star !! k) <->
        exists name idx,
          k = x_star_key name idx /\
          (exists v, v ∈ m_vars rBigm /\ v_active v = true /\ v_name v = name) /\
          ~ has_indicator_prefix name /\ has_element rBigm name idx) /\
     (forall i name idx,
        (i, (name, idx)) ∈ expr_vars obj_expr <->
        i = RChull /\
        (exists v, v ∈ m_vars rBigm /\ v_active v = true /\ v_name v = name) /\
        ~ has_indicator_prefix name /\ has_element rBigm name idx)) /\
  (forall rBigm rChull v,
     v ∈ m_vars rBigm -> v_active v = true ->
     ~ has_indicator_prefix (v_name v) -> occurs "." (v_name v) = true ->
     exists e, separation_problem rBigm rChull = Raise e) /\
  (let st := Example.entry Example.instance0 in
   let rBigm := instance_rBigm (pass_store Example.opt_sequence st).1 in
   exists obj_expr x_star,
     separation_problem rBigm (instance_rChull st) = Ok (obj_expr, x_star) /\
     map fst (map_to_list x_star) ≡ₚ ["x[None]"; "y[1]"; "y[2]"] /\
     expr_vars obj_expr
       = [(RChull, ("x", INone)); (RChull, ("y", IInt 1));
          (RChull, ("y", IInt 2))] /\
     x_star !! x_star_key "_gdp_relax_bigm.d_indicator_var" INone = None) /\
  (forall fuel,
     Example.run Example.opt_sequence Example.opt_sequence (S fuel)
       Example.instance_block
     = Raised (AttributeError "d.w")).
Proof.
  split; [|split; [|split]].
  - intros rBigm rChull oe xs Hsep.
    apply separation_problem_fold in Hsep as (-> & -> & _). split.
    + intros k. rewrite x_star_of_dom, list_elem_of_In, in_map_iff. split.
      * intros ([name idx] & <- & Hin).
        apply list_elem_of_In, elem_of_candidate_handles in Hin.
        by exists name, idx.
      * intros (name & idx & -> & Hin). exists (name, idx). split; [done|].
        by apply list_elem_of_In, elem_of_candidate_handles.
    + intros i name idx. unfold separation_objective.
      rewrite expr_vars_separation_fold. simpl.
      rewrite list_elem_of_In, in_map_iff. split.
      * intros ([name' idx'] & [= <- <- <-] & Hin). split; [done|].
        by apply elem_of_candidate_handles, list_elem_of_In.
      * intros (-> & Hin). exists (name, idx). split; [done|].
        by apply list_elem_of_In, elem_of_candidate_handles.
  - intros rBigm rChull v Hv Hact Hpre Hdot.
    apply (for_each_raises _ _ v).
    + unfold component_objects_Var. by apply list_elem_of_filter.
    + intros acc. unfold separation_outer.
      apply is_indicator_false in Hpre. rewrite Hpre. simpl.
      unfold getattr. rewrite Hdot. by eexists.
  - intros st rBigm.
    destruct (separation_problem rBigm (instance_rChull st))
      as [[oe xs]|e] eqn:Hsep; [|exfalso; revert Hsep; vm_compute; discriminate].
    exists oe, xs. split; [done|].
    apply separation_problem_fold in Hsep as (-> & -> & _).
    split; [|split; run].
    apply (bool_decide_unpack _). vm_compute. exact I.
  - intros fuel.
    by apply (run_store_first_pass Example.opt_sequence Example.opt_sequence
                fuel Example.instance_block (AttributeError "d.w")).
Qed.

(** * [TemporarySubsystemManager] *)

Module SubsystemsFacts.
Import Subsystems.

Section Manager.

Context {value : Type}.
Abbreviation Store := (@Subsystems.Store value).

(** ** What the loops of [__enter__] do *)

Lemma fold_fix l (s : Store) :
  let s' := fold_left (fun s var => fix_ var s) l s in
  (forall v, v ∈ l -> var_fixed s' v = true) /\
  (forall v, v ∉ l -> var_fixed s' v = var_fixed s v) /\
  comp_value s' = comp_value s /\ con_active s' = con_active s.
Proof.
  revert s. induction l as [|a l IH]; intros s; simpl.
  - repeat split; try done. by intros v ?%elem_of_nil.
  - destruct (IH (fix_ a s)) as (Hin & Hout & Hval & Hact). simpl in *.
    split; [|split; [|done]].
    + intros v Hv. destruct (decide (v ∈ l)) as [?|Hnot]; [by apply Hin|].
      apply elem_of_cons in Hv as [->|?]; [|done].
      rewrite Hout by done. apply fn_lookup_insert.
    + intros v Hv. apply not_elem_of_cons in Hv as [Hne Hv].
      rewrite Hout by done. by apply fn_lookup_insert_ne.
Qed.

Lemma fold_deactivate l (s : Store) :
  let s' := fold_left (fun s con => deactivate con s) l s in
  (forall c, c ∈ l -> con_active s' c = false) /\
  (forall c, c ∉ l -> con_active s' c = con_active s c) /\
  comp_value s' = comp_value s /\ var_fixed s' = var_fixed s.
Proof.
  revert s. induction l as [|a l IH]; intros s; simpl.
  - repeat split; try done. by intros v ?%elem_of_nil.
  - destruct (IH (deactivate a s)) as (Hin & Hout & Hval & Hfix). simpl in *.
    split; [|split; [|done]].
    + intros c Hc. destruct (decide (c ∈ l)) as [?|Hnot]; [by apply Hin|].
      apply elem_of_cons in Hc as [->|?]; [|done].
      rewrite Hout by done. apply fn_lookup_insert.
    + intros c Hc. apply not_elem_of_cons in Hc as [Hne Hc].
      rewrite Hout by done. by apply fn_lookup_insert_ne.
Qed.

(** ** What the loops of [__exit__] do *)

Lemma fold_unfix (was : ref -> bool) l (s : Store) :
  let s' := fold_left unfix_unless_was_fixed
              (map (fun var => (var, was var)) l) s in
  (forall v, v ∈ l -> was v = false -> var_fixed s' v = false) /\
  (forall v, v ∉ l \/ was v = true -> var_fixed s' v = var_fixed s v) /\
  comp_value s' = comp_value s /\ con_active s' = con_active s.
Proof.
  revert s. induction l as [|a l IH]; intros s; simpl.
  - repeat split; try done. by intros v ?%elem_of_nil.
  - destruct (IH (if negb (was a) then unfix a s else s))
      as (Hin & Hout & Hval & Hact).
    split; [|split; [|split]].
    + intros v Hv Hwas. destruct (decide (v ∈ l)) as [?|Hnot]; [by apply Hin|].
      apply elem_of_cons in Hv as [->|?]; [|done].
      rewrite Hout by by left. rewrite Hwas. simpl. apply fn_lookup_insert.
    + intros v Hv. rewrite Hout.
      * destruct (was a) eqn:Hwas; simpl; [done|].
        apply fn_lookup_insert_ne. intros ->.
        destruct Hv as [Hv|Hv]; [|congruence].
        apply Hv. by left.
      * destruct Hv as [Hv|Hv]; [left|by right].
        by apply not_elem_of_cons in Hv as [_ ?].
    + rewrite Hval. by destruct (was a).
    + rewrite Hact. by destruct (was a).
Qed.

Lemma fold_activate (was : ref -> bool) l (s : Store) :
  let s' := fold_left activate_if_was_active
              (map (fun con => (con, was con)) l) s in
  (forall c, c ∈ l -> was c = true -> con_active s' c = true) /\
  (forall c, c ∉ l \/ was c = false -> con_active s' c = con_active s c) /\
  comp_value s' = comp_value s /\ var_fixed s' = var_fixed s.
Proof.
  revert s. induction l as [|a l IH]; intros s; simpl.
  - repeat split; try done. by intros v ?%elem_of_nil.
  - destruct (IH (if was a then activate a s else s))
      as (Hin & Hout & Hval & Hfix).
    split; [|split; [|split]].
    + intros c Hc Hwas. destruct (decide (c ∈ l)) as [?|Hnot]; [by apply Hin|].
      apply elem_of_cons in Hc as [->|?]; [|done].
      rewrite Hout by by left. rewrite Hwas. simpl. apply fn_lookup_insert.
    + intros c Hc. rewrite Hout.
      * destruct (was a) eqn:Hwas; simpl; [|done].
        apply fn_lookup_insert_ne. intros ->.
        destruct Hc as [Hc|Hc]; [|congruence].
        apply Hc. by left.
      * destruct Hc as [Hc|Hc]; [left|by right].
        by apply not_elem_of_cons in Hc as [_ ?].
    + rewrite Hval. by destruct (was a).
    + rewrite Hfix. by destruct (was a).
Qed.

Lemma fold_restore (original : ref -> value) l (s : Store) :
  let s' := fold_left restore_value
              (map (fun comp => (comp, original comp)) l) s in
  (forall c, c ∈ l -> comp_value s' c = original c) /\
  (forall c, c ∉ l -> comp_value s' c = comp_value s c) /\
  var_fixed s' = var_fixed s /\ con_active s' = con_active s.
Proof.
  revert s. induction l as [|a l IH]; intros s; simpl.
  - repeat split; try done. by intros v ?%elem_of_nil.
  - destruct (IH (set_value a (original a) s)) as (Hin & Hout & Hfix & Hact).
    simpl in *. split; [|split; [|done]].
    + intros c Hc. destruct (decide (c ∈ l)) as [?|Hnot]; [by apply Hin|].
      apply elem_of_cons in Hc as [->|?]; [|done].
      rewrite Hout by done. apply fn_lookup_insert.
    + intros c Hc. apply not_elem_of_cons in Hc as [Hne Hc].
      rewrite Hout by done. by apply fn_lookup_insert_ne.
Qed.

(** C10.  Around any body, the manager restores what [__enter__]
    changed.  A variable of [to_fix] is fixed inside the [with] statement;
    on exit it is unfixed if it was unfixed at entry, and [__exit__] leaves
    its [fixed] flag alone if it was fixed at entry, so it remains fixed.
    A constraint of [to_deactivate] is inactive inside; on exit it is
    active again if it was active at entry, and left alone (inactive) if it
    was not.  A component of [to_reset] has on exit the value it had at
    entry.  The value of any other component, fixed variables included, is
    the one the body left: it is not restored. *)
Theorem manager_restores (to_fix to_deactivate to_reset : list ref)
    (body : Store -> Store) (s0 : Store) :
  let entered :=
    __enter__ (__init__ (Some to_fix) (Some to_deactivate) (Some to_reset))
      s0 in
  let s1 := entered.2 in
  let s2 := body s1 in
  exists s3,
    __exit__ entered.1 s2 = Some s3 /\
    with_manager (Some to_fix) (Some to_deactivate) (Some to_reset) body s0
      = Some s3 /\
    (forall var, var ∈ to_fix ->
       var_fixed s1 var = true /\
       (var_fixed s0 var = false -> var_fixed s3 var = false) /\
       (var_fixed s0 var = true -> var_fixed s3 var = var_fixed s2 var) /\
       (var_fixed s2 var = var_fixed s1 var ->
        var_fixed s3 var = var_fixed s0 var)) /\
    (forall con, con ∈ to_deactivate ->
       con_active s1 con = false /\
       (con_active s0 con = true -> con_active s3 con = true) /\
       (con_active s0 con = false -> con_active s3 con = con_active s2 con) /\
       (con_active s2 con = con_active s1 con ->
        con_active s3 con = con_active s0 con)) /\
    (forall comp, comp ∈ to_reset -> comp_value s3 comp = comp_value s0 comp) /\
    (forall comp, comp ∉ to_reset -> comp_value s3 comp = comp_value s2 comp) /\
    comp_value s1 = comp_value s0.
Proof.
  intros entered s1 s2.
  unfold __enter__, __init__ in entered. simpl in entered.
  pose proof (fold_fix to_fix s0) as (Hfix_in & _ & Hfix_val & Hfix_act).
  pose proof (fold_deactivate to_deactivate
                (fold_left (fun s var => fix_ var s) to_fix s0))
    as (Hde_in & _ & Hde_val & Hde_fix).
  simpl in *.
  pose proof (fold_unfix (var_fixed s0) to_fix s2)
    as (Hun_in & Hun_out & Hun_val & Hun_act).
  pose proof (fold_activate (con_active s0) to_deactivate
                (fold_left unfix_unless_was_fixed
                   (map (fun var => (var, var_fixed s0 var)) to_fix) s2))
    as (Hac_in & Hac_out & Hac_val & Hac_fix).
  pose proof (fold_restore (comp_value s0) to_reset
                (fold_left activate_if_was_active
                   (map (fun con => (con, con_active s0 con)) to_deactivate)
                   (fold_left unfix_unless_was_fixed
                      (map (fun var => (var, var_fixed s0 var)) to_fix) s2)))
    as (Hre_in & Hre_out & Hre_fix & Hre_act).
  simpl in *.
  eexists. split; [reflexivity|]. split; [reflexivity|].
  assert (forall var, var ∈ to_fix -> var_fixed s1 var = true) as H1.
  { intros var Hvar. subst s1 entered. simpl. rewrite Hde_fix. by apply Hfix_in. }
  assert (forall con, con ∈ to_deactivate -> con_active s1 con = false) as H2.
  { intros con Hcon. subst s1 entered. simpl. by apply Hde_in. }
  split; [|split; [|split; [|split]]].
  - intros var Hvar. rewrite Hre_fix, Hac_fix.
    split; [by apply H1|]. split; [|split].
    + intros Hwas. by apply Hun_in.
    + intros Hwas. apply Hun_out. by right.
    + intros Hbody. rewrite H1 in Hbody by done.
      destruct (var_fixed s0 var) eqn:Hwas.
      * rewrite Hun_out by by right. done.
      * by apply Hun_in.
  - intros con Hcon. rewrite Hre_act.
    split; [by apply H2|]. split; [|split].
    + intros Hwas. by apply Hac_in.
    + intros Hwas. rewrite Hac_out by by right. by rewrite Hun_act.
    + intros Hbody. rewrite H2 in Hbody by done.
      destruct (con_active s0 con) eqn:Hwas.
      * by apply Hac_in.
      * rewrite Hac_out by by right. by rewrite Hun_act.
  - intros comp Hcomp. by apply Hre_in.
  - intros comp Hcomp. rewrite Hre_out by done. by rewrite Hac_val, Hun_val.
  - subst s1 entered. simpl. by rewrite Hde_val, Hfix_val.
Qed.

End Manager.

(** A variable that was fixed at entry and whose value the body changes
    keeps the new value on exit, and stays fixed. *)
Lemma fixed_value_not_restored :
  let s0 : @Store Z :=
    mkStore (fun _ => true) (fun _ => 1%Z) (fun _ => true) in
  exists s3,
    with_manager (Some [0%nat]) None None (set_value 0%nat 7%Z) s0 = Some s3 /\
    comp_value s3 0%nat = 7%Z /\ var_fixed s3 0%nat = true.
Proof. eexists. split; [reflexivity|]. by split. Qed.

End SubsystemsFacts.

(** * Properties beyond the claims *)

(** ** The dictionary [x_star] under repeated keys (lines 73-83, 107) *)

(** The dictionary built by lines 73-83 holds, under the key of an
    element, the value of the last element written under that key: an
    element that shares its key with a later one is read back with the
    later one's value. *)
Theorem x_star_last_write_wins rBigm rChull obj_expr x_star hs1 h hs2 :
  separation_problem rBigm rChull = Ok (obj_expr, x_star) ->
  candidate_handles rBigm = (hs1 ++ h :: hs2)%list ->
  handle_key h ∉ map handle_key hs2 ->
  forall h', handle_key h' = handle_key h ->
    dict_point x_star h'.1 h'.2 = point_of rBigm h.1 h.2.
Proof.
  intros Hsep Hhs Hlast h' Hkey.
  apply separation_problem_fold in Hsep as (_ & -> & _).
  unfold dict_point, x_star_of. fold (handle_key h').
  rewrite Hkey, Hhs, fold_left_app. simpl.
  rewrite x_star_fold_notin by done. by rewrite lookup_insert_eq.
Qed.

Lemma x_star_last_write_wins_witness :
  dict_point
    (x_star_of
       (point_of
          (instance_rBigm (Example.after Example.opt_keys 1 Example.st_keys)))
       (candidate_handles
          (instance_rBigm (Example.after Example.opt_keys 1 Example.st_keys))))
    "z" (IInt 1)
  = point_of
      (instance_rBigm (Example.after Example.opt_keys 1 Example.st_keys))
      "z" (IStr "1").
Proof.
  set (rB := instance_rBigm (Example.after Example.opt_keys 1 Example.st_keys)).
  assert (exists oe,
            separation_problem rB (instance_rChull Example.st_keys)
            = Ok (oe, x_star_of (point_of rB) (candidate_handles rB)))
    as [oe Hsep].
  { destruct (separation_problem rB (instance_rChull Example.st_keys))
      as [[oe xs]|e] eqn:Hsep.
    - exists oe. by destruct (separation_problem_fold _ _ _ _ Hsep) as (_ & <- & _).
    - exfalso. revert Hsep. vm_compute. discriminate. }
  assert (candidate_handles rB
          = ([("x", INone); ("z", IInt 1)] ++ [("z", IStr "1")])%list) as Hhs
    by (vm_compute; reflexivity).
  assert (handle_key ("z", IInt 1) = handle_key ("z", IStr "1")) as Hkey
    by (vm_compute; reflexivity).
  exact (x_star_last_write_wins rB _ oe _ _ ("z", IStr "1") [] Hsep Hhs
           (not_elem_of_nil _) ("z", IInt 1) Hkey).
Defined.

(** * More on [TemporarySubsystemManager] *)

Module ManagerFacts.
Import Subsystems SubsystemsFacts.

Section Manager.

Context {value : Type}.
Abbreviation Store := (@Subsystems.Store value).

(** [__exit__] after [__enter__] touches only what the manager was given:
    whatever the body did to the [fixed] flag of a variable outside
    [to_fix] or to the [active] flag of a constraint outside
    [to_deactivate] is still there on exit. *)
Theorem exit_leaves_the_rest (to_fix to_deactivate to_reset : list ref)
    (body : Store -> Store) (s0 : Store) :
  let entered :=
    __enter__ (__init__ (Some to_fix) (Some to_deactivate) (Some to_reset))
      s0 in
  let s2 := body entered.2 in
  exists s3,
    __exit__ entered.1 s2 = Some s3 /\
    (forall var, var ∉ to_fix -> var_fixed entered.2 var = var_fixed s0 var) /\
    (forall con, con ∉ to_deactivate ->
       con_active entered.2 con = con_active s0 con) /\
    (forall var, var ∉ to_fix -> var_fixed s3 var = var_fixed s2 var) /\
    (forall con, con ∉ to_deactivate ->
       con_active s3 con = con_active s2 con).
Proof.
  intros entered s2.
  pose proof (fold_fix to_fix s0) as (_ & Hfix_out & _ & Hfix_act).
  pose proof (fold_deactivate to_deactivate
                (fold_left (fun s var => fix_ var s) to_fix s0))
    as (_ & Hde_out & _ & Hde_fix).
  pose proof (fold_unfix (var_fixed s0) to_fix s2)
    as (_ & Hun_out & _ & Hun_act).
  pose proof (fold_activate (con_active s0) to_deactivate
                (fold_left unfix_unless_was_fixed
                   (map (fun var => (var, var_fixed s0 var)) to_fix) s2))
    as (_ & Hac_out & _ & Hac_fix).
  pose proof (fold_restore (comp_value s0) to_reset
                (fold_left activate_if_was_active
                   (map (fun con => (con, con_active s0 con)) to_deactivate)
                   (fold_left unfix_unless_was_fixed
                      (map (fun var => (var, var_fixed s0 var)) to_fix) s2)))
    as (_ & _ & Hre_fix & Hre_act).
  simpl in *.
  eexists. split; [reflexivity|]. split; [|split; [|split]].
  - intros var Hvar. subst entered. simpl. rewrite Hde_fix. by apply Hfix_out.
  - intros con Hcon. subst entered. simpl. rewrite Hde_out by done.
    by rewrite Hfix_act.
  - intros var Hvar. rewrite Hre_fix, Hac_fix. apply Hun_out. by left.
  - intros con Hcon. rewrite Hre_act, Hac_out by by left. by rewrite Hun_act.
Qed.

(** With a body that changes nothing, entering and leaving the manager
    gives every component back the [fixed] flag, the [active] flag and the
    value it had, also when a component is listed several times or in
    several of the lists. *)
Theorem enter_exit_round_trip (to_fix to_deactivate to_reset : list ref)
    (s0 : Store) :
  exists s3,
    with_manager (Some to_fix) (Some to_deactivate) (Some to_reset)
      (fun s => s) s0 = Some s3 /\
    forall r,
      var_fixed s3 r = var_fixed s0 r /\
      con_active s3 r = con_active s0 r /\
      comp_value s3 r = comp_value s0 r.
Proof.
  pose proof (fold_fix to_fix s0) as (Hfix_in & Hfix_out & Hfix_val & Hfix_act).
  pose proof (fold_deactivate to_deactivate
                (fold_left (fun s var => fix_ var s) to_fix s0))
    as (Hde_in & Hde_out & Hde_val & Hde_fix).
  set (s1 := fold_left (fun s con => deactivate con s) to_deactivate
               (fold_left (fun s var => fix_ var s) to_fix s0)) in *.
  pose proof (fold_unfix (var_fixed s0) to_fix s1)
    as (Hun_in & Hun_out & Hun_val & Hun_act).
  set (s1a := fold_left unfix_unless_was_fixed
                (map (fun var => (var, var_fixed s0 var)) to_fix) s1) in *.
  pose proof (fold_activate (con_active s0) to_deactivate s1a)
    as (Hac_in & Hac_out & Hac_val & Hac_fix).
  set (s1b := fold_left activate_if_was_active
                (map (fun con => (con, con_active s0 con)) to_deactivate) s1a)
    in *.
  pose proof (fold_restore (comp_value s0) to_reset s1b)
    as (Hre_in & Hre_out & Hre_fix & Hre_act).
  set (s3 := fold_left restore_value
               (map (fun comp => (comp, comp_value s0 comp)) to_reset) s1b)
    in *.
  exists s3. split; [reflexivity|]. intros r. split; [|split].
  - rewrite Hre_fix, Hac_fix.
    destruct (decide (r ∈ to_fix)) as [Hin|Hout].
    + destruct (var_fixed s0 r) eqn:Hwas.
      * rewrite Hun_out by by right. rewrite Hde_fix. by apply Hfix_in.
      * by apply Hun_in.
    + rewrite Hun_out by by left. rewrite Hde_fix. by apply Hfix_out.
  - rewrite Hre_act.
    destruct (decide (r ∈ to_deactivate)) as [Hin|Hout].
    + destruct (con_active s0 r) eqn:Hwas.
      * by apply Hac_in.
      * rewrite Hac_out by by right. rewrite Hun_act. by apply Hde_in.
    + rewrite Hac_out by by left. rewrite Hun_act, Hde_out by done.
      by rewrite Hfix_act.
  - destruct (decide (r ∈ to_reset)) as [Hin|Hout].
    + by apply Hre_in.
    + rewrite Hre_out by done. by rewrite Hac_val, Hun_val, Hde_val, Hfix_val.
Qed.

End Manager.

End ManagerFacts.

(** * [create_subsystem_block] *)

Module SubsystemBlockFacts.
Import Subsystems SubsystemBlock.

(** One scan of a list of variables: what it adds to [input_vars] and to
    [var_set]. *)
Lemma scan_variables xs : forall acc : list ref * gset ref,
  let acc' := fold_left scan_variable xs acc in
  (forall v, v ∈ acc'.2 <-> v ∈ acc.2 \/ v ∈ xs) /\
  (forall v, v ∈ acc'.1 <-> v ∈ acc.1 \/ (v ∈ xs /\ v ∉ acc.2)) /\
  (NoDup acc.1 -> (forall v, v ∈ acc.1 -> v ∈ acc.2) ->
   NoDup acc'.1 /\ (forall v, v ∈ acc'.1 -> v ∈ acc'.2)).
Proof.
  induction xs as [|x xs IH]; intros [l S]; simpl.
  - split; [|split].
    + intros v. rewrite elem_of_nil. tauto.
    + intros v. rewrite elem_of_nil. tauto.
    + done.
  - destruct (IH (scan_variable (l, S) x)) as (HS & Hl & Hnd).
    unfold scan_variable in *. destruct (decide (x ∈ S)) as [Hin|Hout];
      simpl in *.
    + split; [|split].
      * intros v. rewrite HS, elem_of_cons. split; [tauto|].
        intros [?|[->|?]]; tauto.
      * intros v. rewrite Hl, elem_of_cons. split; [tauto|].
        intros [?|[[->|?] ?]]; tauto.
      * done.
    + split; [|split].
      * intros v. rewrite HS, elem_of_cons, elem_of_union, elem_of_singleton.
        tauto.
      * intros v.
        rewrite Hl, elem_of_cons, elem_of_app, list_elem_of_singleton,
          elem_of_union, elem_of_singleton.
        split.
        -- intros [[?| ->]|[? ?]]; [tauto|tauto|]. right. split; tauto.
        -- intros [?|[[->|?] ?]]; [tauto|tauto|].
           destruct (decide (v = x)) as [->|?]; [tauto|]. right.
           split; [done|]. tauto.
      * intros Hnodup Hsub. apply Hnd.
        -- apply list.NoDup_app. split; [done|].
           split; [|apply NoDup_singleton].
           intros v Hv Hx. apply list_elem_of_singleton in Hx as ->.
           apply Hout. by apply Hsub.
        -- intros v. rewrite elem_of_app, list_elem_of_singleton,
             elem_of_union, elem_of_singleton.
           intros [?| ->]; [left; by apply Hsub | by right].
Qed.

Section Block.

Context {Con : Type}.
Variable identify_variables : Con -> bool -> list ref.

(** The block holds the constraints and variables it was given, and its
    [input_vars] are exactly the variables that [identify_variables] finds
    in the body of some constraint and that are not among the given
    variables, each of them once. *)
Theorem input_vars_are_the_other_variables (constraints : list Con)
    (variables : option (list ref)) (include_fixed : bool) :
  let block :=
    create_subsystem_block identify_variables constraints variables
      include_fixed in
  block_vars block = default [] variables /\
  block_cons block = constraints /\
  NoDup (block_input_vars block) /\
  forall v,
    v ∈ block_input_vars block <->
    (v ∉ default [] variables) /\
    exists con, con ∈ constraints /\
                v ∈ identify_variables con include_fixed.
Proof.
  intros block. split; [done|]. split; [done|].
  subst block. unfold create_subsystem_block. simpl.
  unfold scan_constraint.
  rewrite <- (fold_left_flat_map scan_variable
                (fun con => identify_variables con include_fixed)).
  destruct (scan_variables
              (flat_map (fun con => identify_variables con include_fixed)
                 constraints)
              ([], list_to_set (default [] variables)))
    as (_ & Hl & Hnd).
  simpl in *. split.
  - apply Hnd; [constructor|]. by intros v ?%elem_of_nil.
  - intros v. rewrite Hl, elem_of_nil, elem_of_list_to_set, list_elem_of_In,
      in_flat_map.
    split.
    + intros [[]|[(con & Hcon & Hv) Hnot]]. split; [done|].
      exists con. by rewrite !list_elem_of_In.
    + intros [Hnot (con & Hcon & Hv)]. right. split; [|done].
      exists con. by rewrite <- !list_elem_of_In.
Qed.

End Block.

End SubsystemBlockFacts.

(** * [ParamSweeper] *)

Module SweeperFacts.
Import Subsystems SubsystemsFacts Sweeper.

Section Sweeper.

Context {value : Type}.
Abbreviation Store := (@Subsystems.Store value).
Abbreviation ParamSweeper := (@Sweeper.ParamSweeper value).

Lemma list_getitem_in_range (values : list value) (i : Z) :
  (0 <= i < Z.of_nat (length values))%Z -> is_Some (list_getitem values i).
Proof.
  intros Hi. unfold list_getitem.
  destruct (0 <=? i)%Z eqn:H0; [|lia].
  apply lookup_lt_is_Some. lia.
Qed.

(** The loop over the input values, when every list has an element [i]. *)
Lemma set_inputs_spec (i : Z) items : forall (inputs : gmap ref value) (s : Store),
  all_have i items ->
  exists inputs' s',
    set_inputs i items inputs s = (s', Some inputs') /\
    var_fixed s' = var_fixed s /\ con_active s' = con_active s /\
    (forall var, var ∉ map fst items ->
       comp_value s' var = comp_value s var /\
       inputs' !! var = inputs !! var) /\
    (NoDup (map fst items) ->
     forall var values, (var, values) ∈ items ->
       list_getitem values i = Some (comp_value s' var) /\
       inputs' !! var = Some (comp_value s' var)).
Proof.
  induction items as [|[var values] items IH]; intros inputs s Hall; simpl.
  - exists inputs, s. split; [done|]. split; [done|]. split; [done|].
    split; [done|]. intros _ v vals Hv. by apply elem_of_nil in Hv.
  - apply list.Forall_cons in Hall as [[val Hval] Hall]. simpl in Hval.
    rewrite Hval.
    destruct (IH (<[var := val]> inputs) (set_value var val s) Hall)
      as (inputs' & s' & Hrun & Hfix & Hact & Hout & Hin).
    exists inputs', s'. split; [done|]. split; [done|]. split; [done|].
    split.
    + intros v Hv. apply not_elem_of_cons in Hv as [Hne Hv].
      destruct (Hout v Hv) as [-> ->]. simpl.
      split; [by apply fn_lookup_insert_ne | by apply lookup_insert_ne].
    + intros Hnd v vals Hv. apply list.NoDup_cons in Hnd as [Hvar Hnd].
      apply elem_of_cons in Hv as [[= -> ->]|Hv]; [|by apply Hin].
      destruct (Hout var Hvar) as [-> ->]. simpl.
      by rewrite fn_lookup_insert, lookup_insert_eq.
Qed.

Lemma get_outputs_spec (i : Z) items : forall outputs : gmap ref value,
  all_have i items ->
  exists outputs',
    get_outputs i items outputs = Some outputs' /\
    (forall var, var ∉ map fst items -> outputs' !! var = outputs !! var) /\
    (NoDup (map fst items) ->
     forall var values, (var, values) ∈ items ->
       outputs' !! var = list_getitem values i).
Proof.
  induction items as [|[var values] items IH]; intros outputs Hall; simpl.
  - exists outputs. split; [done|]. split; [done|].
    intros _ v vals Hv. by apply elem_of_nil in Hv.
  - apply list.Forall_cons in Hall as [[val Hval] Hall]. simpl in Hval.
    rewrite Hval.
    destruct (IH (<[var := val]> outputs) Hall) as (outputs' & Hrun & Hout & Hin).
    exists outputs'. split; [done|]. split.
    + intros v Hv. apply not_elem_of_cons in Hv as [Hne Hv].
      rewrite (Hout v Hv). by apply lookup_insert_ne.
    + intros Hnd v vals Hv. apply list.NoDup_cons in Hnd as [Hvar Hnd].
      apply elem_of_cons in Hv as [[= -> ->]|Hv]; [|by apply Hin].
      rewrite (Hout var Hvar), Hval. apply lookup_insert_eq.
Qed.

(** One call of [__next__] before the scenarios are exhausted: with [i]
    the incremented index pointer, every input variable gets element [i] of
    its list, the maps returned hold these values and element [i] of the
    output lists, no other component changes, and the index pointer is
    [i]. *)
Theorem next_sets_scenario (self : ParamSweeper) (s : Store) :
  let i := (_ip self + 1)%Z in
  (i < n_scenario self)%Z ->
  all_have i (input_values self) ->
  all_have i (output_values self) ->
  NoDup (map fst (input_values self)) ->
  NoDup (map fst (output_values self)) ->
  exists inputs outputs s',
    __next__ self s = (with_ip self i, s', inr (inputs, outputs)) /\
    (forall var values, (var, values) ∈ input_values self ->
       list_getitem values i = Some (comp_value s' var) /\
       inputs !! var = Some (comp_value s' var)) /\
    (forall var, var ∉ map fst (input_values self) ->
       comp_value s' var = comp_value s var /\ inputs !! var = None) /\
    (forall var values, (var, values) ∈ output_values self ->
       outputs !! var = list_getitem values i) /\
    var_fixed s' = var_fixed s /\ con_active s' = con_active s.
Proof.
  intros i Hi Hin Hout Hnd_in Hnd_out.
  destruct (set_inputs_spec i (input_values self) ∅ s Hin)
    as (inputs & s' & Hset & Hfix & Hact & Hrest & Hvals).
  destruct (get_outputs_spec i (output_values self) ∅ Hout)
    as (outputs & Hget & _ & Houts).
  exists inputs, outputs, s'. split.
  - unfold __next__. simpl. fold i.
    destruct (n_scenario self <=? i)%Z eqn:Hle; [lia|].
    by rewrite Hset, Hget.
  - split; [by apply Hvals|]. split; [|split; [by apply Houts|done]].
    intros var Hvar. destruct (Hrest var Hvar) as [-> ->].
    by rewrite lookup_empty.
Qed.

End Sweeper.

Lemma next_sets_scenario_witness :
  exists inputs outputs s',
    __next__ (__init__ 2 [(0%nat, [5%Z; 6%Z])] None None None None)
      (mkStore (fun _ => false) (fun _ => 0%Z) (fun _ => true))
    = (with_ip (__init__ 2 [(0%nat, [5%Z; 6%Z])] None None None None) 0,
       s', inr (inputs, outputs)) /\
    comp_value s' 0%nat = 5%Z.
Proof.
  destruct (next_sets_scenario
              (__init__ 2 [(0%nat, [5%Z; 6%Z])] None None None None)
              (mkStore (fun _ => false) (fun _ => 0%Z) (fun _ => true)))
    as (inputs & outputs & s' & Hnext & Hvals & _).
  - simpl. lia.
  - repeat constructor. by eexists.
  - constructor.
  - repeat constructor. by intros ?%elem_of_nil.
  - constructor.
  - exists inputs, outputs, s'. split; [exact Hnext|].
    destruct (Hvals 0%nat [5%Z; 6%Z]) as [Hval _]; [by left|].
    simpl in Hval. by injection Hval.
Defined.

End SweeperFacts.

Module SweepFacts.
Import Subsystems SubsystemsFacts Sweeper SweeperFacts.

Section Sweep.

Context {value : Type}.
Abbreviation Store := (@Subsystems.Store value).
Abbreviation ParamSweeper := (@Sweeper.ParamSweeper value).

Lemma all_long_have n i (items : list (ref * list value)) :
  (0 <= i < n)%Z -> all_long n items -> all_have i items.
Proof.
  intros Hi. apply List.Forall_impl. intros [var values] Hlen. simpl in *.
  apply list_getitem_in_range. lia.
Qed.

Lemma next_when_exhausted (self : ParamSweeper) (s : Store) :
  (n_scenario self <= _ip self + 1)%Z ->
  __next__ self s = (with_ip self (-1), s, inl StopIteration).
Proof.
  intros Hle. unfold __next__. simpl.
  by destruct (n_scenario self <=? _ip self + 1)%Z eqn:H; [|lia].
Qed.

Lemma for_scenarios_remaining
    (body : gmap ref value -> gmap ref value -> Store -> Store) (m : nat) :
  forall (self : ParamSweeper) (s : Store) (fuel : nat),
    (0 <= _ip self + 1)%Z ->
    (_ip self + 1 + Z.of_nat m = n_scenario self)%Z ->
    all_long (n_scenario self) (input_values self) ->
    all_long (n_scenario self) (output_values self) ->
    (m < fuel)%nat ->
    exists s',
      for_scenarios fuel body self s = Some (with_ip self (-1), s', m).
Proof.
  induction m as [|m IH]; intros self s fuel H0 Hm Hin Hout Hfuel.
  - destruct fuel as [|fuel]; [lia|]. simpl.
    rewrite next_when_exhausted by lia. by eexists.
  - destruct fuel as [|fuel]; [lia|]. simpl.
    destruct (set_inputs_spec (_ip self + 1) (input_values self) ∅ s)
      as (inputs & s1 & Hset & _);
      [apply (all_long_have (n_scenario self)); [lia|done]|].
    destruct (get_outputs_spec (_ip self + 1) (output_values self) ∅)
      as (outputs & Hget & _);
      [apply (all_long_have (n_scenario self)); [lia|done]|].
    unfold __next__. simpl.
    destruct (n_scenario self <=? _ip self + 1)%Z eqn:Hle; [lia|].
    rewrite Hset, Hget.
    destruct (IH (with_ip self (_ip self + 1)) (body inputs outputs s1) fuel)
      as [s' Hrun]; simpl; try done; try lia.
    rewrite Hrun. by eexists.
Qed.

(** A [for] loop over a sweeper whose index pointer is at its initial
    value -1 and whose lists all have at least [n_scenario] elements runs
    its body exactly [n_scenario] times and ends by [StopIteration] with
    the sweeper as it was, index pointer at -1 again, ready for another
    loop. *)
Theorem for_loop_runs_every_scenario
    (body : gmap ref value -> gmap ref value -> Store -> Store)
    (self : ParamSweeper) (s : Store) (n fuel : nat) :
  _ip self = (-1)%Z ->
  n_scenario self = Z.of_nat n ->
  all_long (n_scenario self) (input_values self) ->
  all_long (n_scenario self) (output_values self) ->
  (n < fuel)%nat ->
  exists s', for_scenarios fuel body self s = Some (self, s', n).
Proof.
  intros Hip Hn Hin Hout Hfuel.
  destruct (for_scenarios_remaining body n self s fuel) as [s' Hrun];
    try done; try lia.
  exists s'. rewrite Hrun. destruct self; simpl in *. by subst.
Qed.

(** Used as a context manager, the sweeper gives back on exit the value
    every input variable, and every component of the [to_reset] it was
    given, had on entry, whatever was done to the values in between. *)
Theorem exit_restores_inputs (n : Z)
    (inputs : list (ref * list value))
    (outputs : option (list (ref * list value)))
    (to_fix to_deactivate to_reset : option (list ref)) (s0 s2 : Store) :
  let entered :=
    Sweeper.__enter__
      (Sweeper.__init__ n inputs outputs to_fix to_deactivate to_reset) s0 in
  exists s3,
    Sweeper.__exit__ entered.1 s2 = Some s3 /\
    forall var,
      var ∈ map fst inputs \/ var ∈ default [] to_reset ->
      comp_value s3 var = comp_value s0 var.
Proof.
  intros entered. subst entered.
  unfold Sweeper.__enter__, Sweeper.__init__, Subsystems.__enter__,
    Subsystems.__init__, Sweeper.__exit__, Subsystems.__exit__.
  simpl.
  set (comps := match to_reset with
                | Some l => (l ++ map fst inputs)%list
                | None => map fst inputs
                end).
  eexists. split; [reflexivity|].
  intros var Hvar.
  pose proof (fold_restore (comp_value s0) comps) as Hre.
  simpl in Hre. apply Hre.
  subst comps. destruct to_reset as [l|]; simpl in *.
  - apply elem_of_app. tauto.
  - destruct Hvar as [?|Hnil]; [done|]. by apply elem_of_nil in Hnil.
Qed.

(** When the list of some input variable has no element [i], [__next__]
    raises [IndexError] after it has already set the input variables that
    come before that one; those after it, and all other components, keep
    their values. *)
Theorem next_index_error (self : ParamSweeper) (s : Store)
    before var values after :
  let i := (_ip self + 1)%Z in
  (i < n_scenario self)%Z ->
  input_values self = (before ++ (var, values) :: after)%list ->
  all_have i before ->
  list_getitem values i = None ->
  NoDup (map fst before) ->
  exists s',
    __next__ self s = (with_ip self i, s', inl IndexError) /\
    (forall v vals, (v, vals) ∈ before ->
       list_getitem vals i = Some (comp_value s' v)) /\
    (forall v, v ∉ map fst before -> comp_value s' v = comp_value s v).
Proof.
  intros i Hi Hitems Hbefore Hnone Hnd.
  assert (forall items (inputs : gmap ref value) (s0 : Store),
            all_have i items ->
            set_inputs i (items ++ (var, values) :: after) inputs s0
            = ((set_inputs i items inputs s0).1, None)) as Hstop.
  { induction items as [|[v vals] items IH]; intros inputs s0 Hall; simpl.
    - by rewrite Hnone.
    - apply list.Forall_cons in Hall as [[val Hval] Hall]. simpl in Hval.
      rewrite Hval. by apply IH. }
  destruct (set_inputs_spec i before ∅ s Hbefore)
    as (inputs & s' & Hset & _ & _ & Hrest & Hvals).
  exists s'. split; [|split].
  - unfold __next__. simpl. fold i.
    destruct (n_scenario self <=? i)%Z eqn:Hle; [lia|].
    by rewrite Hitems, Hstop, Hset.
  - intros v vals Hv. by apply (Hvals Hnd).
  - intros v Hv. by apply Hrest.
Qed.

End Sweep.

Lemma for_loop_runs_every_scenario_witness :
  exists s',
    for_scenarios 3 (fun _ _ s => s)
      (__init__ 2 [(0%nat, [5%Z; 6%Z])] None None None None)
      (mkStore (fun _ => false) (fun _ => 0%Z) (fun _ => true))
    = Some (__init__ 2 [(0%nat, [5%Z; 6%Z])] None None None None, s', 2%nat).
Proof.
  apply (for_loop_runs_every_scenario (fun _ _ s => s)
           (__init__ 2 [(0%nat, [5%Z; 6%Z])] None None None None)
           (mkStore (fun _ => false) (fun _ => 0%Z) (fun _ => true)) 2 3).
  - reflexivity.
  - reflexivity.
  - repeat constructor. simpl. lia.
  - constructor.
  - lia.
Defined.

Lemma next_index_error_witness :
  exists s',
    __next__ (__init__ 2 [(0%nat, [5%Z]); (1%nat, [] : list Z)] None None None None)
      (mkStore (fun _ => false) (fun _ => 0%Z) (fun _ => true))
    = (with_ip
         (__init__ 2 [(0%nat, [5%Z]); (1%nat, [])] None None None None) 0,
       s', inl IndexError) /\
    comp_value s' 0%nat = 5%Z.
Proof.
  destruct (next_index_error
              (__init__ 2 [(0%nat, [5%Z]); (1%nat, [])] None None None None)
              (mkStore (fun _ => false) (fun _ => 0%Z) (fun _ => true))
              [(0%nat, [5%Z])] 1%nat [] [])
    as (s' & Hnext & Hvals & _).
  - simpl. lia.
  - reflexivity.
  - repeat constructor. by eexists.
  - reflexivity.
  - repeat constructor. by intros ?%elem_of_nil.
  - exists s'. split; [exact Hnext|].
    specialize (Hvals 0%nat [5%Z]). simpl in Hvals.
    assert (Some 5%Z = Some (comp_value s' 0%nat)) as H by (apply Hvals; by left).
    by injection H.
Defined.

End SweepFacts.
